(** * IteratorPluginNode: a shallow embedding of src/nodes/IteratorPluginNode.ts

    The node maps a subgraph over an array of items through a bounded
    queue, memoises results in a per-node cache and aggregates failures.
    The model comes first and follows the source file: JavaScript values
    and the built-in operations the file relies on, the codec helpers, the
    validation helpers, the cache helpers, the queued item task, the queue
    and [process] itself.  A reference host and a few concrete batches
    follow, then the vocabulary of the statements, then the properties. *)

From Stdlib Require Import Ascii QArith.
From stdpp Require Import gmap strings list pretty.

Close Scope Q_scope.
Open Scope string_scope.
Open Scope list_scope.
Open Scope nat_scope.
#[local] Set Warnings "-register-all,-clear-no-such-hyp".

(** ** JavaScript values *)

(** Plain data as [process] receives it.  Numbers are the integer-valued
    ones (printed in decimal); an object is the list of its own enumerable
    properties in the order [Object.keys] reports them.  [JBigInt] is kept
    because it is the ordinary value [JSON.stringify] refuses. *)
Inductive JsValue : Type :=
  | JUndefined
  | JNull
  | JBool (b : bool)
  | JNum (z : Z)
  | JBigInt (z : Z)
  | JStr (s : string)
  | JArr (elems : list JsValue)
  | JObj (props : list (string * JsValue)).

(** The chunk size is a JavaScript number the source never rounds
    (lines 299-304): a finite value (every finite double is a rational),
    an infinity or [NaN]. *)
Inductive JsNumber : Type :=
  | NaN
  | Infinity
  | NegInfinity
  | Finite (q : Q).

(** Thrown values: the message is all the source ever reads of them
    ([rivet.getError(err).message]). *)
Inductive exn : Type :=
  | TypeError (msg : string)
  | Error (msg : string).

Definition exn_message (e : exn) : string :=
  match e with TypeError m | Error m => m end.

Definition is_TypeError (e : exn) : bool :=
  match e with TypeError _ => true | Error _ => false end.

(** A computation either completes with a value or throws. *)
Inductive result (A : Type) : Type :=
  | Ok (a : A)
  | Throw (e : exn).
Arguments Ok {A} a.
Arguments Throw {A} e.

Global Instance result_ret : MRet result := fun A a => Ok a.
Global Instance result_bind : MBind result := fun A B f r =>
  match r with Ok a => f a | Throw e => Throw e end.
Global Instance result_fmap : FMap result := fun A B f r =>
  match r with Ok a => Ok (f a) | Throw e => Throw e end.

Definition is_Ok {A} (r : result A) : bool :=
  match r with Ok _ => true | Throw _ => false end.

Module Js.

Definition nl : string := String (Ascii.ascii_of_nat 10) "".

(** [typeof v] *)
Definition typeof (v : JsValue) : string :=
  match v with
  | JUndefined => "undefined"
  | JNull => "object"
  | JBool _ => "boolean"
  | JNum _ => "number"
  | JBigInt _ => "bigint"
  | JStr _ => "string"
  | JArr _ => "object"
  | JObj _ => "object"
  end.

(** [v == null], which also holds of [undefined] *)
Definition is_nullish (v : JsValue) : bool :=
  match v with JUndefined | JNull => true | _ => false end.

(** [Array.prototype.join] on strings already converted *)
Fixpoint join (sep : string) (l : list string) : string :=
  match l with
  | [] => ""
  | [x] => x
  | x :: rest => x +:+ sep +:+ join sep rest
  end.

(** [ToString], as a template literal or [join] applies it.  [join]
    prints [null] and [undefined] elements as the empty string. *)
Fixpoint to_string (v : JsValue) : string :=
  match v with
  | JUndefined => "undefined"
  | JNull => "null"
  | JBool true => "true"
  | JBool false => "false"
  | JNum z => pretty z
  | JBigInt z => pretty z
  | JStr s => s
  | JArr l =>
      join "," (map (fun x => if is_nullish x then "" else to_string x) l)
  | JObj _ => "[object Object]"
  end.

Definition join_values (sep : string) (l : list JsValue) : string :=
  join sep (map (fun x => if is_nullish x then "" else to_string x) l).

(** [v == s] for a string literal [s] that is not numeric (the source
    compares against ["object"] and ["control-flow-excluded"] only, for
    which [ToNumber] is [NaN]): a string compares by content, an array or
    object through its [ToString], every other primitive is unequal. *)
Definition loose_eq_str (v : JsValue) (s : string) : bool :=
  match v with
  | JStr t => bool_decide (t = s)
  | JArr _ | JObj _ => bool_decide (to_string v = s)
  | _ => false
  end.

(** Own-property lookup in a property list. *)
Fixpoint assoc (k : string) (ps : list (string * JsValue)) : option JsValue :=
  match ps with
  | [] => None
  | (k', v) :: rest => if bool_decide (k' = k) then Some v else assoc k rest
  end.

(** [o[k] = v] on a property list: overwrite in place or append. *)
Fixpoint set_prop (k : string) (v : JsValue) (ps : list (string * JsValue))
  : list (string * JsValue) :=
  match ps with
  | [] => [(k, v)]
  | (k', v') :: rest =>
      if bool_decide (k' = k) then (k, v) :: rest
      else (k', v') :: set_prop k v rest
  end.

(** [v[k]] for the property names the source reads (["type"], ["value"],
    ["outputs"], ["error"], ["id"]): none of them is an index or an
    inherited property, so only objects can answer; reading a property
    of [null] or [undefined] throws. *)
Definition get_prop (v : JsValue) (k : string) : result JsValue :=
  match v with
  | JUndefined | JNull =>
      Throw (TypeError ("Cannot read properties of " +:+ to_string v))
  | JObj ps => Ok (default JUndefined (assoc k ps))
  | _ => Ok JUndefined
  end.

(** [v?.k] *)
Definition opt_prop (v : JsValue) (k : string) : JsValue :=
  match v with
  | JObj ps => default JUndefined (assoc k ps)
  | _ => JUndefined
  end.

(** [k in v]: throws unless [v] is an object. *)
Definition has_prop (k : string) (v : JsValue) : result bool :=
  match v with
  | JObj ps => Ok (bool_decide (is_Some (assoc k ps)))
  | JArr _ => Ok false
  | _ => Throw (TypeError ("Cannot use 'in' operator to search for '" +:+ k
                            +:+ "' in " +:+ to_string v))
  end.

Definition indices (n : nat) : list string := map pretty (seq 0 n).

Fixpoint chars (s : string) : list JsValue :=
  match s with
  | EmptyString => []
  | String a rest => JStr (String a "") :: chars rest
  end.

(** [Object.keys(v)] *)
Definition Object_keys (v : JsValue) : result (list string) :=
  match v with
  | JUndefined | JNull =>
      Throw (TypeError "Cannot convert undefined or null to object")
  | JObj ps => Ok (map fst ps)
  | JArr l => Ok (indices (length l))
  | JStr s => Ok (indices (String.length s))
  | _ => Ok []
  end.

(** [Object.values(v)] *)
Definition Object_values (v : JsValue) : result (list JsValue) :=
  match v with
  | JUndefined | JNull =>
      Throw (TypeError "Cannot convert undefined or null to object")
  | JObj ps => Ok (map snd ps)
  | JArr l => Ok l
  | JStr s => Ok (chars s)
  | _ => Ok []
  end.

(** SameValueZero on primitives, as [includes] and [Set] use it.  Arrays
    and objects are compared by reference there; every array or object
    handed to a [Set] below is a distinct reference, hence never equal. *)
Definition same_value_zero (a b : JsValue) : bool :=
  match a, b with
  | JUndefined, JUndefined | JNull, JNull => true
  | JBool x, JBool y => bool_decide (x = y)
  | JNum x, JNum y => bool_decide (x = y)
  | JBigInt x, JBigInt y => bool_decide (x = y)
  | JStr x, JStr y => bool_decide (x = y)
  | _, _ => false
  end.

(** [Array.prototype.includes] *)
Definition includes (l : list JsValue) (x : JsValue) : bool :=
  existsb (fun y => same_value_zero y x) l.

(** [Set.prototype.add] on an insertion-ordered set *)
Definition set_add (x : JsValue) (s : list JsValue) : list JsValue :=
  if includes s x then s else s ++ [x].

(** [Array.prototype.some] with a callback that may throw and that
    threads a state (the sets the source's callbacks write to): the scan
    stops at the first element whose callback answers [true]. *)
(** [a < b] and [a >= b] on numbers: every comparison with [NaN] is
    false. *)
Definition num_lt (a b : JsNumber) : bool :=
  match a, b with
  | NaN, _ | _, NaN => false
  | _, NegInfinity => false
  | NegInfinity, _ => true
  | Infinity, _ => false
  | Finite _, Infinity => true
  | Finite x, Finite y => negb (Qle_bool y x)
  end.

Definition num_ge (a b : JsNumber) : bool :=
  match a, b with
  | NaN, _ | _, NaN => false
  | _, NegInfinity => true
  | Infinity, _ => true
  | NegInfinity, _ => false
  | Finite _, Infinity => false
  | Finite x, Finite y => Qle_bool y x
  end.

(** A count ([queue.pending]) as a number. *)
Definition num_of_nat (n : nat) : JsNumber := Finite (inject_Z (Z.of_nat n)).

Fixpoint some_st {A S : Type} (f : A → S → result (bool * S))
    (l : list A) (st : S) : result (bool * S) :=
  match l with
  | [] => Ok (false, st)
  | x :: rest =>
      match f x st with
      | Throw e => Throw e
      | Ok (true, st') => Ok (true, st')
      | Ok (false, st') => some_st f rest st'
      end
  end.

End Js.

(** ** The host environment *)

(** Built-ins and imported libraries ([JSON], [crypto.subtle], [lz-string]).
    They are not part of the file; the node is verified against any
    implementation of them. *)
Record Runtime : Type := {
  (** a number interpolated into a template literal *)
  Number_toString : JsNumber → string;
  (** [JSON.stringify] on a value other than [undefined]; throws on a
      [BigInt] or a cycle *)
  JSON_stringify : JsValue → result string;
  (** [JSON.parse]; throws a [SyntaxError] on malformed text *)
  JSON_parse : string → result JsValue;
  (** [crypto.subtle.digest("SHA-256", new TextEncoder().encode(input))] *)
  digest_SHA256 : string → list Byte.byte;
  (** [LZString.compressToUTF16] *)
  compressToUTF16 : string → string;
  (** [LZString.decompressFromUTF16]; [None] is JavaScript's [null] *)
  decompressFromUTF16 : string → option string;
}.

(** The [rivet] object handed to [iteratorPluginNode]. *)
Record Rivet : Type := {
  isScalarDataType : JsValue → result bool;
  isArrayDataType : JsValue → result bool;
  isFunctionDataType : JsValue → result bool;
  (** the [dedent] template tag: literal chunks and interpolated values *)
  dedent : list string → list string → string;
  (** [impl.process(iteratorInputData, context)] of the dynamically created
      call-graph node, for the item at a given index: the subgraph's
      outputs, or the error it throws *)
  callGraph_process : nat → JsValue → result (list (string * JsValue));
}.

(** [callGraphConnectionIds] *)
Module callGraphConnectionIds.
Definition graph : string := "graph".
Definition inputs : string := "inputs".
Definition outputs : string := "outputs".
Definition error : string := "error".
End callGraphConnectionIds.

(** ** Graphs and the plugin cache *)

Record ChartNode : Type := {
  node_type : string;
  node_data : list (string * JsValue);
}.

Record NodeGraph : Type := { nodes : list ChartNode }.

(** One entry of [iteratorPluginCacheStorage]. *)
Record CacheStorage : Type := {
  cache : gmap string string;
  expiryTimestamp : Z;
  graphSnapshot : option string;
}.

(** [iteratorPluginCacheStorage], keyed by node id. *)
Abbreviation PluginCache := (gmap string CacheStorage).

(** One lower-case hexadecimal digit. *)
Definition hex_digit (n : N) : string :=
  match n with
  | 0%N => "0" | 1%N => "1" | 2%N => "2" | 3%N => "3" | 4%N => "4"
  | 5%N => "5" | 6%N => "6" | 7%N => "7" | 8%N => "8" | 9%N => "9"
  | 10%N => "a" | 11%N => "b" | 12%N => "c" | 13%N => "d" | 14%N => "e"
  | _ => "f"
  end.

(** [byte.toString(16).padStart(2, "0")] *)
Definition hex_byte (b : Byte.byte) : string :=
  let n := Byte.to_N b in
  hex_digit (n / 16) +:+ hex_digit (n mod 16).

Section Node.

Variable rt : Runtime.
Variable rivet : Rivet.

(** [sha256] (lines 41-50) *)
Definition sha256 (input : string) : string :=
  Js.join "" (map hex_byte (digest_SHA256 rt input)).

(** [compressObject] (lines 57-65): the [catch] logs and rethrows. *)
Definition compressObject (obj : JsValue) : result string :=
  jsonString ← JSON_stringify rt obj;
  Ok (compressToUTF16 rt jsonString).

(** [decompressObject] (lines 72-83): [!decompressed] holds of [null] and
    of the empty string. *)
Definition decompressObject (compressedData : string) : result JsValue :=
  match decompressFromUTF16 rt compressedData with
  | None | Some "" =>
      Throw (Error "Decompression returned null or undefined.")
  | Some decompressed => JSON_parse rt decompressed
  end.

(** [isAnyDataValue] (lines 514-523) *)
Definition isAnyDataValue (data : JsValue) : result bool :=
  if bool_decide (Js.typeof data = "object") then
    hasType ← Js.has_prop "type" data;
    if hasType : bool then
      hasValue ← Js.has_prop "value" data;
      if hasValue : bool then
        ty ← Js.get_prop data "type";
        scalar ← isScalarDataType rivet ty;
        if scalar : bool then Ok true
        else
          array ← isArrayDataType rivet ty;
          if array : bool then Ok true else isFunctionDataType rivet ty
      else Ok false
    else Ok false
  else Ok false.

(** [isObjectDataValue] (lines 529-535) *)
Definition isObjectDataValue (data : JsValue) : bool :=
  bool_decide (Js.typeof data = "object")
  && Js.loose_eq_str (Js.opt_prop data "type") "object"
  && bool_decide (Js.typeof (Js.opt_prop data "value") = "object").

(** [invalideCacheIfChanges] (lines 537-556) *)
Definition invalideCacheIfChanges (cacheStorage : CacheStorage)
    (snapshot : string) : CacheStorage :=
  if bool_decide (graphSnapshot cacheStorage ≠ Some snapshot) then
    {| cache := ∅;
       expiryTimestamp := expiryTimestamp cacheStorage;
       graphSnapshot := Some snapshot |}
  else cacheStorage.

(** The ids of the graph's input nodes (lines 578-584): [id ?? null],
    then the nullish ones dropped. *)
Definition expectedKeys (graph : NodeGraph) : list JsValue :=
  let graphInputNodes :=
    filter (fun f => node_type f = "graphInput") (nodes graph) in
  filter (fun f => Js.is_nullish f = false)
    (map (fun m =>
            let id := default JUndefined (Js.assoc "id" (node_data m)) in
            if Js.is_nullish id then JNull else id)
       graphInputNodes).

(** The two sets [validateInputItem] writes to. *)
Record Problems : Type := {
  missingKeys : list JsValue;
  notDataValue : list JsValue;
}.

Definition no_problems : Problems :=
  {| missingKeys := []; notDataValue := [] |}.

(** [validateInputItem] (lines 558-610) *)
Definition validateInputItem (item : JsValue) (graph : NodeGraph)
    (sets : Problems) : result (bool * Problems) :=
  keys0 ← Js.Object_keys item;
  itemKeys ← (if isObjectDataValue item
              then value ← Js.get_prop item "value"; Js.Object_keys value
              else Ok keys0);
  values0 ← Js.Object_values item;
  itemValues ← (if isObjectDataValue item
                then value ← Js.get_prop item "value"; Js.Object_values value
                else Ok values0);
  let expected := expectedKeys graph in
  let absent key := negb (Js.includes (map JStr itemKeys) key) in
  if existsb absent expected then
    Ok (true,
        {| missingKeys :=
             foldl (fun s key => Js.set_add key s) (missingKeys sets)
               (filter (fun key => absent key = true) expected);
           notDataValue := notDataValue sets |})
  else
    Js.some_st
      (fun s (st : Problems) =>
         isDataType ← isAnyDataValue s;
         if isDataType : bool then Ok (false, st)
         else Ok (true,
                  {| missingKeys := missingKeys st;
                     notDataValue := Js.set_add s (notDataValue st) |}))
      itemValues sets.

(** [cleanExpiredCache] (lines 612-623) *)
Definition cleanExpiredCache (now : Z) (storage : PluginCache) : PluginCache :=
  filter (fun kv => ¬ (expiryTimestamp kv.2 < now)%Z) storage.

(** ** Inputs of [process] *)

(** The fields of [IteratorPluginNodeData] that [process] reads. *)
Record IteratorPluginNodeData : Type := {
  chunkSize : JsNumber;
  hasCache : bool;
  nodeId : option string;
}.

Record GraphReference : Type := { graphId : string; graphName : string }.

(** What one invocation of [process] reads from its arguments and from
    the clock, after [rivet.coerceType]. *)
Record ProcessInput : Type := {
  data : IteratorPluginNodeData;
  (** [inputData[iteratorConnectionIds.graph]] and its coercion *)
  input_graph : JsValue;
  graphRef : GraphReference;
  (** [inputData[iteratorConnectionIds.iteratorInputs]] as ["object[]"] *)
  iteratorInputs : list JsValue;
  (** [coerceTypeOptional(inputData[chunkSize], "number")] *)
  chunkSizeInput : option JsNumber;
  (** [context.project.graphs] *)
  project_graphs : gmap string NodeGraph;
  (** [Date.now()], in milliseconds, at line 339 and at line 613 *)
  now_created : Z;
  now_cleaned : Z;
}.

Variable inp : ProcessInput.

(** Lines 299-304: [chunkSize > 0 ? chunkSize : 1], on any number. *)
Definition resolved_chunkSize : JsNumber :=
  let c := default (chunkSize (data inp)) (chunkSizeInput inp) in
  if Js.num_lt (Finite 0) c then c else Finite 1.

(** [new PQueue({ concurrency: chunkSize })] (line 377): the constructor
    of p-queue throws unless the concurrency is a number from 1 up. *)
Definition new_PQueue : result unit :=
  if Js.num_ge resolved_chunkSize (Finite 1) then Ok ()
  else Throw (TypeError
                ("Expected `concurrency` to be a number from 1 and up, got `"
                   +:+ Number_toString rt resolved_chunkSize
                   +:+ "` (number)")).

(** Line 333 *)
Definition caching : bool :=
  hasCache (data inp) && bool_decide (is_Some (nodeId (data inp))).

(** [{ type: "control-flow-excluded", value: undefined }] *)
Definition control_flow_excluded : JsValue :=
  JObj [("type", JStr "control-flow-excluded"); ("value", JUndefined)].

(** ** The queued task of one item (lines 379-455) *)

Definition item_at (index : nat) : JsValue :=
  default JUndefined (iteratorInputs inp !! index).

(** Lines 389-395 *)
Definition itemDataValue (item : JsValue) : JsValue :=
  if isObjectDataValue item then item
  else JObj [("type", JStr "object"); ("value", item)].

(** Lines 397-401 *)
Definition iteratorInputData (item : JsValue) : JsValue :=
  JObj [(callGraphConnectionIds.graph, input_graph inp);
        (callGraphConnectionIds.inputs, itemDataValue item)].

(** How a promise returned by [queue.add] ends. *)
Inductive Settle : Type :=
  | Fulfilled (itemOutput : JsValue)
  | Rejected (e : exn).

(** Where a started task is suspended: each constructor is one [await]
    of the task body. *)
Inductive Stage : Type :=
  | HashLookup (json : string)
      (** line 404, [await sha256(json)] before the cache lookup *)
  | Processing
      (** line 418, [await impl.process(...)] *)
  | HashStore (itemOutput : list (string * JsValue)) (json : string)
      (** line 421, [await sha256(json)] before the cache store *).

(** The state shared by the tasks of one invocation. *)
Record QState : Type := {
  abortIteration : bool;
  cacheStorage : CacheStorage;
  (** tasks the queue has not started, first in first out *)
  waiting : list nat;
  (** started tasks and the [await] each is suspended at *)
  running : list (nat * Stage);
  (** settled promises, oldest first *)
  settled : list (nat * Settle);
  (** the items [impl.process] has been called for, oldest first *)
  invoked : list nat;
}.

(** Field updates of the shared state. *)
Definition set_abortIteration (s : QState) : QState :=
  {| abortIteration := true; cacheStorage := cacheStorage s;
     waiting := waiting s; running := running s; settled := settled s;
     invoked := invoked s |}.

Definition set_waiting (w : list nat) (s : QState) : QState :=
  {| abortIteration := abortIteration s; cacheStorage := cacheStorage s;
     waiting := w; running := running s; settled := settled s;
     invoked := invoked s |}.

Definition set_running (r : list (nat * Stage)) (s : QState) : QState :=
  {| abortIteration := abortIteration s; cacheStorage := cacheStorage s;
     waiting := waiting s; running := r; settled := settled s;
     invoked := invoked s |}.

(** A task reaches an [await]; a task's promise settles. *)
Definition suspend (index : nat) (st : Stage) (s : QState) : QState :=
  set_running (running s ++ [(index, st)]) s.

Definition settle (index : nat) (r : Settle) (s : QState) : QState :=
  {| abortIteration := abortIteration s; cacheStorage := cacheStorage s;
     waiting := waiting s; running := running s;
     settled := settled s ++ [(index, r)]; invoked := invoked s |}.

(** [cacheStorage.cache.set(cacheKey, compressed)] *)
Definition cache_set (cacheKey compressed : string) (s : QState) : QState :=
  {| abortIteration := abortIteration s;
     cacheStorage :=
       {| cache := <[cacheKey := compressed]> (cache (cacheStorage s));
          expiryTimestamp := expiryTimestamp (cacheStorage s);
          graphSnapshot := graphSnapshot (cacheStorage s) |};
     waiting := waiting s; running := running s; settled := settled s;
     invoked := invoked s |}.

(** The call [impl.process(iteratorInputData, context)] and the [await]
    on it (line 418). *)
Definition call_graph (index : nat) (s : QState) : QState :=
  suspend index Processing
    {| abortIteration := abortIteration s; cacheStorage := cacheStorage s;
       waiting := waiting s; running := running s; settled := settled s;
       invoked := invoked s ++ [index] |}.

(** Lines 446-450 *)
Definition item_error_message (index : nat) (inputs message : string)
  : string :=
  "Error running graph " +:+ graphName (graphRef inp)
    +:+ ".  ItemIndex: " +:+ pretty index +:+ "::  Inputs: " +:+ inputs
    +:+ "  Message: " +:+ message.

(** The item output the [catch] block builds (lines 439-451): the outputs
    port excluded, the error port carrying the message. *)
Definition failed_output (index : nat) (itemOutput : list (string * JsValue))
    (err : exn) (inputs : string) : JsValue :=
  JObj (Js.set_prop callGraphConnectionIds.error
          (JObj [("type", JStr "string");
                 ("value",
                  JStr (item_error_message index inputs (exn_message err)))])
          (Js.set_prop callGraphConnectionIds.outputs control_flow_excluded
             itemOutput)).

(** The [catch] block (lines 438-453).  [JSON.stringify(item)] is
    evaluated before [abortIteration = true] is reached; when it throws,
    the error leaves the task and the promise rejects. *)
Definition catch_block (index : nat) (itemOutput : list (string * JsValue))
    (err : exn) (s : QState) : QState :=
  match JSON_stringify rt (item_at index) with
  | Throw e => settle index (Rejected e) s
  | Ok inputs =>
      set_abortIteration
        (settle index (Fulfilled (failed_output index itemOutput err inputs)) s)
  end.

(** The output of a task that found [abortIteration] set (lines 432-437). *)
Definition skipped_output : JsValue :=
  JObj [(callGraphConnectionIds.outputs, control_flow_excluded)].

(** The task body from its start to its first [await] (lines 380-406 and
    418). *)
Definition task_start (index : nat) (s : QState) : QState :=
  if abortIteration s then settle index (Fulfilled skipped_output) s
  else if caching then
    match JSON_stringify rt (iteratorInputData (item_at index)) with
    | Throw e => catch_block index [] e s
    | Ok json => suspend index (HashLookup json) s
    end
  else call_graph index s.

(** The task body from one [await] to the next, or to its end. *)
Definition task_resume (index : nat) (st : Stage) (s : QState) : QState :=
  match st with
  | HashLookup json =>
      let cacheKey := sha256 json in
      match cache (cacheStorage s) !! cacheKey with
      | Some "" | None => call_graph index s
      | Some cachedOutputCompressed =>
          match decompressObject cachedOutputCompressed with
          | Ok v => settle index (Fulfilled v) s
          | Throw e => catch_block index [] e s
          end
      end
  | Processing =>
      match callGraph_process rivet index
              (iteratorInputData (item_at index)) with
      | Throw e => catch_block index [] e s
      | Ok itemOutput =>
          if caching then
            match JSON_stringify rt (iteratorInputData (item_at index)) with
            | Throw e => catch_block index itemOutput e s
            | Ok json => suspend index (HashStore itemOutput json) s
            end
          else settle index (Fulfilled (JObj itemOutput)) s
      end
  | HashStore itemOutput json =>
      let cacheKey := sha256 json in
      match compressObject (JObj itemOutput) with
      | Throw e => catch_block index itemOutput e s
      | Ok compressed =>
          settle index (Fulfilled (JObj itemOutput))
            (cache_set cacheKey compressed s)
      end
  end.

(** ** The queue (lines 377-378, [p-queue])

    [new PQueue({ concurrency })] starts queued tasks in the order they
    were added, and starts one only while the number of running tasks is
    below [concurrency] ([pending < concurrency], on numbers).  What the file does not fix is when each [await]
    resumes and when the context's abort signal fires; a schedule lists
    these events. *)
Inductive Event : Type :=
  | Start                 (** the queue starts its next task *)
  | Resume (index : nat)  (** the pending [await] of a task resolves *)
  | AbortSignal           (** the listener of line 286 runs *).

Fixpoint stage_of (index : nat) (r : list (nat * Stage)) : option Stage :=
  match r with
  | [] => None
  | (i, st) :: rest => if bool_decide (i = index) then Some st
                       else stage_of index rest
  end.

Definition without (index : nat) (r : list (nat * Stage))
  : list (nat * Stage) :=
  filter (fun p => p.1 ≠ index) r.

Definition step (ev : Event) (s : QState) : option QState :=
  match ev with
  | Start =>
      match waiting s with
      | [] => None
      | index :: rest =>
          if Js.num_lt (Js.num_of_nat (length (running s))) resolved_chunkSize
          then Some (task_start index (set_waiting rest s))
          else None
      end
  | Resume index =>
      match stage_of index (running s) with
      | None => None
      | Some st =>
          Some (task_resume index st
                  (set_running (without index (running s)) s))
      end
  | AbortSignal => Some (set_abortIteration s)
  end.

(** Running a schedule; [None] when an event is not enabled. *)
Fixpoint exec (schedule : list Event) (s : QState) : option QState :=
  match schedule with
  | [] => Some s
  | ev :: rest =>
      match step ev s with
      | None => None
      | Some s' => exec rest s'
      end
  end.

(** [await queue.onIdle()]: nothing waits and nothing runs. *)
Definition idle (s : QState) : bool :=
  bool_decide (waiting s = []) && bool_decide (running s = []).

(** ** [process] (lines 278-503) *)

(** What [process] returns: the error pair (outputs excluded, message on
    the error port) or the array of item outputs. *)
Inductive BatchOutputs : Type :=
  | BatchError (message : string)
  | BatchResult (values : list JsValue).

Inductive ProcessOutcome : Type :=
  | Returned (outputs : BatchOutputs)
  | Thrown (e : exn).

(** Lines 309-311 (the source names the flag [allItemsAreObjects]). *)
Definition some_item_not_object : bool :=
  existsb (fun s => negb (bool_decide (Js.typeof s = "object")))
    (iteratorInputs inp).

(** Line 319 *)
Definition shape_error_message : string :=
  dedent rivet
    ["Input array must be an array of objects.  Each object needs to be a DataValue.  A graph needs an object with keys that match the graph's input ports"]
    [].

(** Lines 328-330 *)
Definition snapshot_of (graph : NodeGraph) : result string :=
  json ← JSON_stringify rt (JArr (map (fun m => JObj (node_data m)) (nodes graph)));
  Ok (sha256 json).

(** [iteratorPluginCacheStorage.get(nodeId)] *)
Definition storage_get (storage : PluginCache) : option CacheStorage :=
  id ← nodeId (data inp); storage !! id.

(** The entry of lines 337-341 when the storage has none. *)
Definition new_cacheStorage (snapshot : string) : CacheStorage :=
  {| cache := ∅;
     expiryTimestamp := (now_created inp + 1 * 60 * 60)%Z;
     graphSnapshot := Some snapshot |}.

Definition getOrCreate (storage : PluginCache) (snapshot : string)
  : CacheStorage :=
  default (new_cacheStorage snapshot) (storage_get storage).

(** An entry obtained from the storage is the stored object itself:
    what the invocation does to it shows in the storage. *)
Definition write_through (storage : PluginCache) (entry : CacheStorage)
  : PluginCache :=
  match nodeId (data inp) with
  | Some id =>
      if bool_decide (is_Some (storage !! id)) then <[id := entry]> storage
      else storage
  | None => storage
  end.

(** Lines 345-349 *)
Definition validate_batch (graph : NodeGraph) : result (bool * Problems) :=
  Js.some_st (fun s sets => validateInputItem s graph sets)
    (iteratorInputs inp) no_problems.

(** [JSON.stringify(value)] at line 366, where the value may be
    [undefined] (the answer is then [undefined], which [join] prints as
    the empty string). *)
Definition stringify_any (v : JsValue) : result string :=
  match v with
  | JUndefined => Ok ""
  | _ => JSON_stringify rt v
  end.

(** Lines 356-368 *)
Definition validation_error_message (sets : Problems) : result string :=
  let missing :=
    match missingKeys sets with
    | [] => ""
    | _ => "Missing keys required for graph: " +:+ Js.nl +:+ "            "
             +:+ Js.join_values "; " (missingKeys sets)
    end in
  match notDataValue sets with
  | [] => Ok ("Input validation error::" +:+ missing)
  | _ =>
      shown ← mapM stringify_any (notDataValue sets);
      Ok ("Input validation error::" +:+ missing
            +:+ dedent rivet
                  ["Invalid Inputs, make sure each input item is a ObjectDataValue: "
                     +:+ Js.nl +:+ "            "; ""]
                  [Js.join "; " shown])
  end.

Inductive Prelude : Type :=
  | Done (out : ProcessOutcome) (storage' : PluginCache)
  | Dispatch (s0 : QState).

(** The state when the queue is created (line 377): every item queued in
    input order (line 378). *)
Definition initial_state (entry : CacheStorage) : QState :=
  {| abortIteration := false; cacheStorage := entry;
     waiting := seq 0 (length (iteratorInputs inp));
     running := []; settled := []; invoked := [] |}.

(** Lines 283-374: everything before the queue. *)
Definition process_prelude (storage : PluginCache) : Prelude :=
  if some_item_not_object then
    Done (Returned (BatchError shape_error_message)) storage
  else
    match project_graphs inp !! graphId (graphRef inp) with
    | None =>
        Done (Thrown (TypeError "Cannot read properties of undefined")) storage
    | Some graph =>
        match snapshot_of graph with
        | Throw e => Done (Thrown e) storage
        | Ok snapshot =>
            let entry :=
              invalideCacheIfChanges (getOrCreate storage snapshot) snapshot in
            let storage' := write_through storage entry in
            match validate_batch graph with
            | Throw e => Done (Thrown e) storage'
            | Ok (true, sets) =>
                match validation_error_message sets with
                | Throw e => Done (Thrown e) storage'
                | Ok message => Done (Returned (BatchError message)) storage'
                end
            | Ok (false, _) => Dispatch (initial_state entry)
            end
        end
    end.

(** [Promise.all] rejects with the first promise to reject. *)
Fixpoint first_rejection (l : list (nat * Settle)) : option exn :=
  match l with
  | [] => None
  | (_, Rejected e) :: _ => Some e
  | (_, Fulfilled _) :: rest => first_rejection rest
  end.

(** The value the promise of an item was fulfilled with. *)
Fixpoint output_of (index : nat) (l : list (nat * Settle)) : option JsValue :=
  match l with
  | [] => None
  | (i, r) :: rest =>
      if bool_decide (i = index) then
        match r with Fulfilled v => Some v | Rejected _ => None end
      else output_of index rest
  end.

(** [await Promise.all(addToQueue)]: the outputs in input order. *)
Definition iteratorOutputs (s : QState) : option (list JsValue) :=
  mapM (fun index => output_of index (settled s))
    (seq 0 (length (iteratorInputs inp))).

(** [f[callGraphConnectionIds.outputs]?.type == "control-flow-excluded"] *)
Definition is_excluded (f : JsValue) : result bool :=
  o ← Js.get_prop f callGraphConnectionIds.outputs;
  Ok (Js.loose_eq_str (Js.opt_prop o "type") "control-flow-excluded").

(** [Array.prototype.filter] with a predicate that may throw *)
Fixpoint filter_r {A} (f : A → result bool) (l : list A) : result (list A) :=
  match l with
  | [] => Ok []
  | x :: rest =>
      keep ← f x;
      kept ← filter_r f rest;
      Ok (if keep : bool then x :: kept else kept)
  end.

(** Line 490 *)
Definition error_line (i : nat) (m : JsValue) : result string :=
  e ← Js.get_prop m callGraphConnectionIds.error;
  Ok ("ItemIndex: " +:+ pretty i +:+ ":: "
        +:+ Js.to_string (Js.opt_prop e "value")).

(** Lines 471-502 *)
Definition aggregate (outputs : list JsValue) : ProcessOutcome :=
  match Js.some_st (fun f (_ : unit) => b ← is_excluded f; Ok (b, ()))
          outputs () with
  | Throw e => Thrown e
  | Ok (false, _) => Returned (BatchResult outputs)
  | Ok (true, _) =>
      match filter_r is_excluded outputs with
      | Throw e => Thrown e
      | Ok failed =>
          match mapM (fun p => error_line p.1 p.2) (imap pair failed) with
          | Throw e => Thrown e
          | Ok lines => Returned (BatchError (Js.join "; " lines))
          end
      end
  end.

(** Lines 459-469: the storage once the queue is idle. *)
Definition commit (storage : PluginCache) (entry : CacheStorage)
  : PluginCache :=
  match nodeId (data inp) with
  | Some id =>
      if caching
      then cleanExpiredCache (now_cleaned inp) (<[id := entry]> storage)
      else write_through storage entry
  | None => storage
  end.

(** Lines 459-502, from an idle queue. *)
Definition process_finish (storage : PluginCache) (s : QState)
  : option (ProcessOutcome * PluginCache) :=
  if idle s then
    match first_rejection (settled s) with
    | Some e => Some (Thrown e, write_through storage (cacheStorage s))
    | None =>
        outputs ← iteratorOutputs s;
        Some (aggregate outputs, commit storage (cacheStorage s))
    end
  else None.

(** [process] along a schedule of the queue: the outcome and the plugin
    cache afterwards; [None] when the schedule is not a complete run. *)
Definition process (schedule : list Event) (storage : PluginCache)
  : option (ProcessOutcome * PluginCache) :=
  match process_prelude storage with
  | Done out storage' => Some (out, storage')
  | Dispatch s0 =>
      match new_PQueue with
      | Throw e => Some (Thrown e, write_through storage (cacheStorage s0))
      | Ok _ => s ← exec schedule s0; process_finish storage s
      end
  end.

End Node.

(** ** The node's declarations (lines 96-110 and 140-226) *)

(** [iteratorConnectionIds] *)
Module iteratorConnectionIds.
Definition iteratorInputs : string := "iteratorInputs".
Definition iteratorOutputs : string := "iteratorOutputs".
Definition graph : string := "graph".
Definition chunkSize : string := "chunkSize".
Definition iteratorError : string := "error".
Definition hasCache : string := "hasCache".
End iteratorConnectionIds.

(** [IteratorPluginNodeData] in full (lines 86-94). *)
Record NodeData : Type := {
  data_iteratorOutputs : list JsValue;
  data_chunkSize : JsNumber;
  data_hasCache : bool;
  data_useChunkSizeToggle : bool;
  data_nodeId : option string;
}.

(** The part of the data [process] reads. *)
Definition process_data (d : NodeData) : IteratorPluginNodeData :=
  {| chunkSize := data_chunkSize d;
     hasCache := data_hasCache d;
     nodeId := data_nodeId d |}.

(** The node [create] returns. *)
Record IteratorPluginNode : Type := {
  plugin_id : string;
  plugin_data : NodeData;
  plugin_title : string;
  plugin_type : string;
  plugin_x : Z;
  plugin_y : Z;
  plugin_width : Z;
}.

(** [create] (lines 140-169), given the id [rivet.newId()] returns. *)
Definition create (newId : string) : IteratorPluginNode :=
  {| plugin_id := newId;
     plugin_data :=
       {| data_iteratorOutputs := [];
          data_chunkSize := Finite 1;
          data_useChunkSizeToggle := false;
          data_hasCache := false;
          data_nodeId := Some newId |};
     plugin_title := "Iterator Plugin Node";
     plugin_type := "iteratorPlugin";
     plugin_x := 0;
     plugin_y := 0;
     plugin_width := 200 |}.

Record NodeInputDefinition : Type := {
  input_id : string;
  input_dataType : string;
  input_title : string;
  input_description : string;
  (** absent on the chunk size port *)
  input_required : option bool;
  (** the default the chunk size port carries *)
  input_data : option JsNumber;
}.

Record NodeOutputDefinition : Type := {
  output_id : string;
  output_dataType : string;
  output_title : string;
}.

(** [iteratorInputOutputsHelperMessage] (lines 130-132) *)
Definition iteratorInputOutputsHelperMessage (rivet : Rivet) : string :=
  dedent rivet
    ["Inputs must be an array of objects to iterate over.  Each object in the array should be a ObjectDataValue `{type: 'object', value: <graph inputs>}`; where <graph inputs> is of the format `{type: 'object', value: {<graph input id>: <input value>}}` The graph input id should match the graph's input ports.  The input value should be a DataValue. "
       +:+ Js.nl +:+ Js.nl
       +:+ "  Ouputs will be an array of ObjectDataValue `type: 'object', value: {<graph output id>: <output value>}`"]
    [].

(** [getInputDefinitions] (lines 173-209) *)
Definition getInputDefinitions (rivet : Rivet) (d : NodeData)
  : list NodeInputDefinition :=
  [ {| input_id := iteratorConnectionIds.graph;
       input_dataType := "graph-reference";
       input_title := "Graph";
       input_description := "The reference to the graph to call.";
       input_required := Some true;
       input_data := None |};
    {| input_id := iteratorConnectionIds.iteratorInputs;
       input_dataType := "object[]";
       input_title := "Iterator Inputs Array";
       input_description := iteratorInputOutputsHelperMessage rivet;
       input_required := Some true;
       input_data := None |} ]
  ++ (if data_useChunkSizeToggle d
      then [ {| input_id := iteratorConnectionIds.chunkSize;
                input_dataType := "number";
                input_title := "Chunk Size";
                input_description :=
                  "The concurrency limit: The number of items to process at the same time.";
                input_required := None;
                input_data := Some (data_chunkSize d) |} ]
      else []).

(** [getOutputDefinitions] (lines 213-226) *)
Definition getOutputDefinitions (d : NodeData) : list NodeOutputDefinition :=
  [ {| output_id := iteratorConnectionIds.iteratorOutputs;
       output_dataType := "object[]";
       output_title := "Iterator Output Array" |} ].

(** The [outputs] object [process] returns (lines 313-321, 352-373,
    476-494 and 498-502). *)
Definition outputs_object (o : BatchOutputs) : list (string * JsValue) :=
  match o with
  | BatchError message =>
      [ (iteratorConnectionIds.iteratorOutputs, control_flow_excluded);
        (iteratorConnectionIds.iteratorError,
         JObj [("type", JStr "string"); ("value", JStr message)]) ]
  | BatchResult values =>
      [ (iteratorConnectionIds.iteratorOutputs,
         JObj [("type", JStr "object[]"); ("value", JArr values)]) ]
  end.

(** Reading the hexadecimal text [sha256] produces back into bytes. *)
Definition hex_value (c : ascii) : option N :=
  let n := N_of_ascii c in
  if bool_decide (48 ≤ n ≤ 57)%N then Some (n - 48)%N
  else if bool_decide (97 ≤ n ≤ 102)%N then Some (n - 87)%N
  else None.

Fixpoint unhex (s : string) : option (list Byte.byte) :=
  match s with
  | EmptyString => Some []
  | String hi (String lo rest) =>
      h ← hex_value hi; l ← hex_value lo;
      b ← Byte.of_N (16 * h + l);
      bs ← unhex rest;
      Some (b :: bs)
  | String _ EmptyString => None
  end.

(** ** A reference host

    A small, executable host used to run the node on concrete batches: a
    compact JSON printer and reader for the values above, a stand-in for
    the digest and for the compressor, and rivet's data-type predicates. *)
Module Host.

Definition quote : string := String (Ascii.ascii_of_nat 34) "".

(** Printing.  A [BigInt] makes [JSON.stringify] throw; [undefined]
    prints as [null] inside arrays and is skipped inside objects. *)
Fixpoint print (v : JsValue) : option string :=
  match v with
  | JUndefined => Some "null"
  | JNull => Some "null"
  | JBool true => Some "true"
  | JBool false => Some "false"
  | JNum z => Some (pretty z)
  | JBigInt _ => None
  | JStr s => Some (quote +:+ s +:+ quote)
  | JArr l =>
      parts ← (fix go (l : list JsValue) : option (list string) :=
                 match l with
                 | [] => Some []
                 | x :: rest =>
                     p ← print x; ps ← go rest; Some (p :: ps)
                 end) l;
      Some ("[" +:+ Js.join "," parts +:+ "]")
  | JObj props =>
      parts ← (fix go (l : list (string * JsValue)) : option (list string) :=
                 match l with
                 | [] => Some []
                 | (k, JUndefined) :: rest => go rest
                 | (k, x) :: rest =>
                     p ← print x; ps ← go rest;
                     Some ((quote +:+ k +:+ quote +:+ ":" +:+ p) :: ps)
                 end) props;
      Some ("{" +:+ Js.join "," parts +:+ "}")
  end.

Definition stringify (v : JsValue) : result string :=
  match print v with
  | Some s => Ok s
  | None => Throw (TypeError "Do not know how to serialize a BigInt")
  end.

(** Reading, by recursive descent with fuel: literals, integers, strings
    without escapes, arrays and objects, no white space. *)
Fixpoint read_string (cs : string) : option (string * string) :=
  match cs with
  | EmptyString => None
  | String c rest =>
      if bool_decide (c = Ascii.ascii_of_nat 34) then Some ("", rest)
      else '(s, rest') ← read_string rest; Some (String c s, rest')
  end.

Definition digit (c : Ascii.ascii) : option Z :=
  let n := Ascii.nat_of_ascii c in
  if bool_decide (48 ≤ n ≤ 57)%nat then Some (Z.of_nat (n - 48)) else None.

Fixpoint read_digits (acc : Z) (cs : string) : Z * string :=
  match cs with
  | EmptyString => (acc, cs)
  | String c rest =>
      match digit c with
      | Some d => read_digits (10 * acc + d) rest
      | None => (acc, cs)
      end
  end.

Definition strip (p cs : string) : option string :=
  if String.prefix p cs
  then Some (String.substring (String.length p)
               (String.length cs - String.length p) cs)
  else None.

Fixpoint read_value (fuel : nat) (cs : string) : option (JsValue * string) :=
  match fuel with
  | O => None
  | S fuel =>
      let fix elems (n : nat) (cs : string) : option (list JsValue * string) :=
        match n with
        | O => None
        | S n =>
            '(v, cs1) ← read_value fuel cs;
            match cs1 with
            | String "]"%char cs2 => Some ([v], cs2)
            | String ","%char cs2 =>
                '(vs, cs3) ← elems n cs2; Some (v :: vs, cs3)
            | _ => None
            end
        end in
      let fix members (n : nat) (cs : string)
          : option (list (string * JsValue) * string) :=
        match n with
        | O => None
        | S n =>
            cs0 ← strip quote cs;
            '(k, cs1) ← read_string cs0;
            cs2 ← strip ":" cs1;
            '(v, cs3) ← read_value fuel cs2;
            match cs3 with
            | String "}"%char cs4 => Some ([(k, v)], cs4)
            | String ","%char cs4 =>
                '(ms, cs5) ← members n cs4; Some ((k, v) :: ms, cs5)
            | _ => None
            end
        end in
      match cs with
      | String "n"%char (String "u"%char (String "l"%char (String "l"%char rest))) =>
          Some (JNull, rest)
      | String "t"%char (String "r"%char (String "u"%char (String "e"%char rest))) =>
          Some (JBool true, rest)
      | String "f"%char (String "a"%char (String "l"%char (String "s"%char (String "e"%char rest)))) =>
          Some (JBool false, rest)
      | String "["%char (String "]"%char rest) => Some (JArr [], rest)
      | String "["%char rest => '(vs, rest') ← elems fuel rest; Some (JArr vs, rest')
      | String "{"%char (String "}"%char rest) => Some (JObj [], rest)
      | String "{"%char rest =>
          '(ms, rest') ← members fuel rest; Some (JObj ms, rest')
      | String "-"%char rest =>
          let '(z, rest') := read_digits 0 rest in Some (JNum (- z), rest')
      | String c rest =>
          if bool_decide (c = Ascii.ascii_of_nat 34) then
            '(s, rest') ← read_string rest; Some (JStr s, rest')
          else
            match digit c with
            | Some _ => let '(z, rest') := read_digits 0 cs in
                        Some (JNum z, rest')
            | None => None
            end
      | EmptyString => None
      end
  end.

Definition parse (text : string) : result JsValue :=
  match read_value (S (String.length text)) text with
  | Some (v, "") => Ok v
  | _ => Throw (Error "SyntaxError: Unexpected token in JSON")
  end.

(** The digest stand-in: the bytes of the text itself (injective). *)
Definition bytes_of (input : string) : list Byte.byte :=
  String.list_byte_of_string input.

(** The compressor stand-in: a one-character header. *)
Definition compress (s : string) : string := String "z"%char s.

Definition decompress (c : string) : option string :=
  match c with
  | String "z"%char s => Some s
  | EmptyString => None
  | _ => Some ""
  end.

(** Printing a number: a finite one in decimal, up to 17 digits after
    the point. *)
Fixpoint fraction_digits (fuel : nat) (r d : Z) : string :=
  match fuel with
  | 0 => ""
  | S fuel =>
      if bool_decide (r = 0)%Z then ""
      else pretty (r * 10 / d)%Z +:+ fraction_digits fuel (r * 10 mod d)%Z d
  end.

Definition print_number (c : JsNumber) : string :=
  match c with
  | NaN => "NaN"
  | Infinity => "Infinity"
  | NegInfinity => "-Infinity"
  | Finite q =>
      let n := Z.abs (Qnum q) in
      let d := Z.pos (Qden q) in
      (if bool_decide (Qnum q < 0)%Z then "-" else "")
        +:+ pretty (n / d)%Z
        +:+ (if bool_decide (n mod d = 0)%Z then ""
             else "." +:+ fraction_digits 17 (n mod d)%Z d)
  end.

Definition runtime : Runtime :=
  {| Number_toString := print_number;
     JSON_stringify := stringify;
     JSON_parse := parse;
     digest_SHA256 := bytes_of;
     compressToUTF16 := compress;
     decompressFromUTF16 := decompress |}.

(** rivet-core: a data type is an array type when it ends in [[]], a
    function type when it starts with [fn<], scalar otherwise; the
    predicates call string methods on their argument. *)
Definition type_name (ty : JsValue) : result string :=
  match ty with
  | JStr s => Ok s
  | _ => Throw (TypeError "type.endsWith is not a function")
  end.

Definition is_array (ty : JsValue) : result bool :=
  s ← type_name ty;
  Ok (bool_decide (2 ≤ String.length s)%nat
      && bool_decide (String.substring (String.length s - 2) 2 s = "[]")).

Definition is_function (ty : JsValue) : result bool :=
  s ← type_name ty; Ok (String.prefix "fn<" s).

Definition is_scalar (ty : JsValue) : result bool :=
  a ← is_array ty; f ← is_function ty; Ok (negb a && negb f).

(** [dedent] stand-in: chunks and values interleaved as they are. *)
Fixpoint interleave (chunks values : list string) : string :=
  match chunks, values with
  | [], _ => ""
  | c :: cs, [] => c +:+ interleave cs []
  | c :: cs, v :: vs => c +:+ v +:+ interleave cs vs
  end.

(** A rivet whose subgraph is the given function. *)
Definition rivet_with
    (subgraph : nat → JsValue → result (list (string * JsValue))) : Rivet :=
  {| isScalarDataType := is_scalar;
     isArrayDataType := is_array;
     isFunctionDataType := is_function;
     dedent := interleave;
     callGraph_process := subgraph |}.

(** A subgraph that echoes its inputs on the [outputs] port. *)
Definition echo (index : nat) (inputData : JsValue)
  : result (list (string * JsValue)) :=
  Ok [("outputs", Js.opt_prop inputData "inputs")].

(** The same, throwing at one index. *)
Definition echo_failing_at (k : nat) (index : nat) (inputData : JsValue)
  : result (list (string * JsValue)) :=
  if bool_decide (index = k) then Throw (Error "boom")
  else echo index inputData.

End Host.

(** ** Concrete batches *)
Module Examples.

(** A tagged number, [{type: "number", value: z}]. *)
Definition tagged (z : Z) : JsValue :=
  JObj [("type", JStr "number"); ("value", JNum z)].

Definition graphInput (id : string) : ChartNode :=
  {| node_type := "graphInput"; node_data := [("id", JStr id)] |}.

Definition graph_xy : NodeGraph :=
  {| nodes := [graphInput "x"; graphInput "y"] |}.

(** A graph without input nodes: every object is a valid item. *)
Definition graph_plain : NodeGraph :=
  {| nodes := [{| node_type := "text"; node_data := [("text", JStr "hi")] |}] |}.

Definition input_with (graph : NodeGraph) (items : list JsValue)
    (limit : JsNumber) (cached : bool) : ProcessInput :=
  {| data := {| chunkSize := limit; hasCache := cached; nodeId := Some "node" |};
     input_graph := JObj [("type", JStr "graph-reference")];
     graphRef := {| graphId := "g"; graphName := "G" |};
     iteratorInputs := items;
     chunkSizeInput := None;
     project_graphs := {[ "g" := graph ]};
     now_created := 1000;
     now_cleaned := 2000 |}.

(** The same with a whole number for limit. *)
Definition input (graph : NodeGraph) (items : list JsValue) (limit : Z)
    (cached : bool) : ProcessInput :=
  input_with graph items (Finite (inject_Z limit)) cached.

(** Item 0 lacks [x]; item 2 carries a bare number under [y]. *)
Definition batch_xy : list JsValue :=
  [ JObj [("y", tagged 1)];
    JObj [("x", tagged 1); ("y", tagged 2)];
    JObj [("x", tagged 3); ("y", JNum 7)] ].

Definition three_empty : list JsValue := [JObj []; JObj []; JObj []].

(** A valid item whose tagged value is a [BigInt]. *)
Definition big_item : JsValue :=
  JObj [("a", JObj [("type", JStr "number"); ("value", JBigInt 1)])].

(** A subgraph whose output holds a [BigInt]. *)
Definition big (index : nat) (inputData : JsValue)
  : result (list (string * JsValue)) :=
  Ok [("outputs", JObj [("type", JStr "object"); ("value", JBigInt 1)])].

End Examples.

(** ** Vocabulary of the statements below *)

(** One hour in the unit of [Date.now()], milliseconds. *)
Definition one_hour_ms : Z := 60 * 60 * 1000.

(** A cache entry without content. *)
Definition empty_entry : CacheStorage :=
  {| cache := ∅; expiryTimestamp := 0; graphSnapshot := None |}.

Section Vocabulary.

Variable rt : Runtime.
Variable rivet : Rivet.
Variable inp : ProcessInput.

(** The entry the tasks start from. *)
Variable entry0 : CacheStorage.

(** The queue state after the segment of task [index], relative to the
    state before it: the task either suspends at a new [await] or settles;
    nothing else moves. *)
Definition segment_of (index : nat) (s s' : QState) : Prop :=
  waiting s' = waiting s
  ∧ ((∃ st, running s' = running s ++ [(index, st)] ∧ settled s' = settled s)
     ∨ (∃ r, running s' = running s ∧ settled s' = settled s ++ [(index, r)])).

(** The stage of a task awaiting [impl.process]. *)
Definition is_processing (st : Stage) : bool :=
  match st with Processing => true | _ => false end.

(** The subgraph invocations in flight: the tasks awaiting [impl.process]. *)
Definition invocations_in_flight (s : QState) : nat :=
  length (filter (fun p : nat * Stage => is_processing p.2 = true) (running s)).

(** Every item is in exactly one place: waiting, running or settled. *)
Definition indices (s : QState) : list nat :=
  waiting s ++ (running s).*1 ++ (settled s).*1.

(** The three places hold the items of the batch, each once, and an item
    the subgraph was called for is no longer waiting. *)
Definition well_formed (s : QState) : Prop :=
  indices s ≡ₚ seq 0 (length (iteratorInputs inp))
  ∧ (∀ i, i ∈ invoked s → i ∉ waiting s).

(** What holds of the tasks [waiting] when the flag is found set, for as
    long as the invocation goes on. *)
Definition skipping (s1 s : QState) : Prop :=
  abortIteration s = true
  ∧ (running s).*1 ⊆ (running s1).*1
  ∧ (∀ i, i ∈ invoked s → i ∈ invoked s1 ∨ i ∈ (running s1).*1)
  ∧ (∀ i r, i ∈ waiting s1 → (i, r) ∈ settled s →
            r = Fulfilled skipped_output)
  ∧ waiting s ⊆ waiting s1.

(** The [await]s a task still has before it, at most. *)
Definition weight (st : Stage) : nat :=
  match st with HashLookup _ => 3 | Processing => 2 | HashStore _ _ => 1 end.

(** The [await]s left in the running tasks, and in the whole queue (a
    waiting task counts for one more than the longest task body). *)
Fixpoint stages_work (r : list (nat * Stage)) : nat :=
  match r with
  | [] => 0
  | (_, st) :: rest => weight st + stages_work rest
  end.

Definition work_left (s : QState) : nat :=
  4 * length (waiting s) + stages_work (running s).

(** A promise that did not reject. *)
Definition fulfilled (p : nat * Settle) : Prop := ∃ v, p.2 = Fulfilled v.

(** The subgraph call of an item and the text its cache key is hashed
    from. *)
Definition call_of (index : nat) : result (list (string * JsValue)) :=
  callGraph_process rivet index (iteratorInputData inp (item_at inp index)).

Definition key_text_of (index : nat) : result string :=
  JSON_stringify rt (iteratorInputData inp (item_at inp index)).

(** A stored value a later hit can return: empty (read as a miss) or
    decoding to an output that is not excluded. *)
Definition decodes_well (compressed : string) : Prop :=
  compressed = ""
  ∨ ∃ v, decompressObject rt compressed = Ok v ∧ is_excluded v = Ok false.

(** Where a value found under a key came from: the entry as it was, or
    the output of an item with this key, stored during the invocation. *)
Definition cached_under (cacheKey compressed : string) : Prop :=
  cache entry0 !! cacheKey = Some compressed
  ∨ ∃ j json itemOutput,
      j < length (iteratorInputs inp)
      ∧ key_text_of j = Ok json ∧ cacheKey = sha256 rt json
      ∧ call_of j = Ok itemOutput
      ∧ compressObject rt (JObj itemOutput) = Ok compressed.

(** The output at position [index] belongs to the item at [index]: it is
    what the subgraph returned for that item, or the decoding of a value
    cached under that item's key. *)
Definition result_for (index : nat) (v : JsValue) : Prop :=
  (∃ itemOutput, call_of index = Ok itemOutput ∧ v = JObj itemOutput)
  ∨ (caching inp = true
     ∧ ∃ json compressed,
         key_text_of index = Ok json
         ∧ cached_under (sha256 rt json) compressed
         ∧ decompressObject rt compressed = Ok v).

(** What a suspended task carries is what the source computed for its
    item: the key text, and the output of the subgraph call. *)
Definition stage_ok (index : nat) (st : Stage) : Prop :=
  match st with
  | HashLookup json => caching inp = true ∧ key_text_of index = Ok json
  | Processing => True
  | HashStore itemOutput json =>
      caching inp = true ∧ key_text_of index = Ok json
      ∧ call_of index = Ok itemOutput
  end.

(** A settled promise holds an output of its own item that is not
    excluded. *)
Definition settled_ok (p : nat * Settle) : Prop :=
  ∃ v, p.2 = Fulfilled v ∧ is_excluded v = Ok false ∧ result_for p.1 v.

(** The state of a run in which nothing has failed so far. *)
Definition succeeding (s : QState) : Prop :=
  abortIteration s = false
  ∧ Forall (fun p => stage_ok p.1 p.2) (running s)
  ∧ Forall settled_ok (settled s)
  ∧ (caching inp = true →
     ∀ k c, cache (cacheStorage s) !! k = Some c →
            decodes_well c ∧ cached_under k c).

End Vocabulary.

(** The state a schedule leads to, on concrete batches. *)
Definition state_after (rt : Runtime) (rivet : Rivet) (inp : ProcessInput)
    (schedule : list Event) (s : QState) : QState :=
  default s (exec rt rivet inp schedule s).

(** What [process] gives along a schedule, on concrete batches. *)
Definition outcome_after (rt : Runtime) (rivet : Rivet) (inp : ProcessInput)
    (schedule : list Event) (storage : PluginCache)
  : ProcessOutcome * PluginCache :=
  default (Thrown (Error "incomplete run"), storage)
    (process rt rivet inp schedule storage).

(** The events of a schedule that run a task segment. *)
Definition is_AbortSignal (ev : Event) : bool :=
  match ev with AbortSignal => true | _ => false end.

Definition task_events (schedule : list Event) : nat :=
  length (filter (fun ev => is_AbortSignal ev = false) schedule).

(** A promise settled by a task that found the flag set. *)
Definition skipped (p : nat * Settle) : Prop := p.2 = Fulfilled skipped_output.

(** No item had its subgraph called twice, and a task whose subgraph was
    called is past its cache lookup. *)
Definition invoked_once (inp : ProcessInput) (s : QState) : Prop :=
  NoDup (invoked s)
  ∧ (∀ i, i ∈ invoked s → i < length (iteratorInputs inp))
  ∧ (∀ i json, i ∈ invoked s → (i, HashLookup json) ∉ running s).

(** [n] tasks run within the limit [c]: the last of them was started
    while the number of running tasks, [n - 1], was below [c]. *)
Definition within_limit (c : JsNumber) (n : nat) : Prop :=
  match n with
  | 0 => True
  | S k => Js.num_lt (Js.num_of_nat k) c = true
  end.

(** The key of an item is in the cache of an entry, with a value a lookup
    takes for a hit. *)
Definition key_stored (rt : Runtime) (inp : ProcessInput) (c : CacheStorage)
    (index : nat) : Prop :=
  ∃ json compressed,
    key_text_of rt inp index = Ok json
    ∧ cache c !! sha256 rt json = Some compressed
    ∧ compressed ≠ "".

(** A suspended task carries the key text of its own item, and an item
    settled with an output that is not excluded has its key stored. *)
Definition keys_kept (rt : Runtime) (inp : ProcessInput) (s : QState) : Prop :=
  Forall (fun p : nat * Stage =>
            match p.2 with
            | HashLookup json | HashStore _ json =>
                key_text_of rt inp p.1 = Ok json
            | Processing => True
            end) (running s)
  ∧ Forall (fun p : nat * Settle =>
              ∀ v, p.2 = Fulfilled v → is_excluded v = Ok false →
                   key_stored rt inp (cacheStorage s) p.1) (settled s).

(** A promise fulfilled with an output that is not excluded. *)
Definition good (p : nat * Settle) : Prop :=
  ∃ v, p.2 = Fulfilled v ∧ is_excluded v = Ok false.

(** Case analysis on what a task segment does. *)
Ltac task_crush :=
  unfold task_start, task_resume, catch_block, call_graph, suspend, settle,
    cache_set, set_running, set_waiting, set_abortIteration in *;
  repeat case_match; simpl in *.

(** ** Validation *)

Section Validation.

Variable rivet : Rivet.
Variable graph : NodeGraph.

(** An item that passes leaves both sets as they were. *)
Lemma validateInputItem_pass item sets sets' :
  validateInputItem rivet item graph sets = Ok (false, sets') → sets' = sets.
Proof.
  unfold validateInputItem.
  destruct (Js.Object_keys item) as [keys0|]; simpl; [|done].
  destruct (if isObjectDataValue item then _ else _) as [itemKeys|]; simpl; [|done].
  destruct (Js.Object_values item) as [values0|]; simpl; [|done].
  destruct (if isObjectDataValue item then _ else _) as [itemValues|]; simpl; [|done].
  destruct (existsb _ _); [done|].
  clear. revert sets. induction itemValues as [|v vs IH]; intros sets; simpl.
  - by intros [= ->].
  - destruct (isAnyDataValue rivet v) as [[]|]; simpl; try done. apply IH.
Qed.

(** The scan of line 347 reports the problems of one item only: the first
    one that fails. *)
Lemma validation_reports_first_failing_item items sets :
  Js.some_st (fun s st => validateInputItem rivet s graph st) items no_problems
    = Ok (true, sets) →
  ∃ passed item rest,
    items = passed ++ item :: rest
    ∧ validateInputItem rivet item graph no_problems = Ok (true, sets).
Proof.
  generalize no_problems as st.
  induction items as [|x xs IH]; intros st; simpl; [done|].
  destruct (validateInputItem rivet x graph st) as [[[] st']|] eqn:Hx; [| |done].
  - intros [= <-]. by exists [], x, xs.
  - apply validateInputItem_pass in Hx as ->.
    intros (passed & item & rest & -> & Hitem)%IH.
    by exists (x :: passed), item, rest.
Qed.

End Validation.

(** C1.  On the batch whose item 0 lacks field [x] and whose item 2 carries
    a bare value under [y], validation stops at item 0: the sets hold the
    missing key [x] and no invalid value, and the reported message names
    [x] only, although item 2 on its own is reported with its value 7. *)
Theorem validation_stops_at_first_failing_item :
  let rivet := Host.rivet_with Host.echo in
  let inp := Examples.input Examples.graph_xy Examples.batch_xy 1 false in
  validate_batch rivet inp Examples.graph_xy
    = Ok (true, {| missingKeys := [JStr "x"]; notDataValue := [] |})
  ∧ validateInputItem rivet (JObj [("x", Examples.tagged 3); ("y", JNum 7)])
      Examples.graph_xy no_problems
    = Ok (true, {| missingKeys := []; notDataValue := [JNum 7] |})
  ∧ fst <$> process Host.runtime rivet inp [] ∅
    = Some (Returned (BatchError
              ("Input validation error::Missing keys required for graph: "
                 +:+ Js.nl +:+ "            x"))).
Proof. by vm_compute. Qed.

(** ** The cache entry *)

(** C2.  When the storage has no entry for the node, the entry created has
    an empty cache and expires [1 * 60 * 60 = 3600] milliseconds after the
    current time, which is not one hour after it. *)
Theorem new_entry_expires_after_3600_ms (inp : ProcessInput)
    (storage : PluginCache) (snapshot : string) :
  storage_get inp storage = None →
  cache (getOrCreate inp storage snapshot) = ∅
  ∧ expiryTimestamp (getOrCreate inp storage snapshot)
    = (now_created inp + 3600)%Z
  ∧ expiryTimestamp (getOrCreate inp storage snapshot)
    ≠ (now_created inp + one_hour_ms)%Z.
Proof.
  intros Hnone. unfold getOrCreate. rewrite Hnone. simpl.
  unfold one_hour_ms. repeat split; lia.
Qed.

Lemma new_entry_expires_after_3600_ms_witness :
  let inp := Examples.input Examples.graph_plain Examples.three_empty 1 true in
  storage_get inp ∅ = None
  ∧ expiryTimestamp (getOrCreate inp ∅ "s") = 4600%Z.
Proof.
  split; [reflexivity|].
  apply (new_entry_expires_after_3600_ms
           (Examples.input Examples.graph_plain Examples.three_empty 1 true)
           ∅ "s").
  reflexivity.
Defined.

(** The snapshot test of [invalideCacheIfChanges], by cases. *)
Lemma invalideCacheIfChanges_changed (entry : CacheStorage) (snapshot : string) :
  graphSnapshot entry ≠ Some snapshot →
  invalideCacheIfChanges entry snapshot
    = {| cache := ∅; expiryTimestamp := expiryTimestamp entry;
         graphSnapshot := Some snapshot |}.
Proof. intros H. unfold invalideCacheIfChanges. by rewrite bool_decide_true. Qed.

Lemma invalideCacheIfChanges_same (entry : CacheStorage) (snapshot : string) :
  graphSnapshot entry = Some snapshot →
  invalideCacheIfChanges entry snapshot = entry.
Proof.
  intros H. unfold invalideCacheIfChanges.
  rewrite bool_decide_false; [done|]. by intros [].
Qed.

(** When [process] reaches the queue, the entry the tasks share is the
    reconciled one and no task has run. *)
Lemma process_prelude_dispatch rt rivet inp storage s0 :
  process_prelude rt rivet inp storage = Dispatch s0 →
  ∃ graph snapshot,
    project_graphs inp !! graphId (graphRef inp) = Some graph
    ∧ snapshot_of rt graph = Ok snapshot
    ∧ some_item_not_object inp = false
    ∧ (∃ sets, validate_batch rivet inp graph = Ok (false, sets))
    ∧ s0 = initial_state inp
             (invalideCacheIfChanges (getOrCreate inp storage snapshot) snapshot).
Proof.
  unfold process_prelude.
  destruct (some_item_not_object inp); [done|].
  destruct (project_graphs inp !! graphId (graphRef inp)) as [graph|]; [|done].
  destruct (snapshot_of rt graph) as [snapshot|] eqn:Hs; [|done].
  destruct (validate_batch rivet inp graph) as [[[] sets]|] eqn:Hv; [| |done].
  - by destruct (validation_error_message rt rivet sets).
  - intros [= <-]. exists graph, snapshot.
    repeat split; try done. by exists sets.
Qed.



(** ** The codec *)

(** C6.  For a value that round-trips through the JSON serialization,
    [decompressObject (compressObject v)] is [v], given lz-string's own
    round trip and that [JSON.parse] rejects the empty text. *)
Theorem decompress_compress_round_trip (rt : Runtime) (v : JsValue)
    (text : string) :
  (∀ s, decompressFromUTF16 rt (compressToUTF16 rt s) = Some s) →
  (∀ w, JSON_parse rt "" ≠ Ok w) →
  JSON_stringify rt v = Ok text →
  JSON_parse rt text = Ok v →
  ∃ compressed,
    compressObject rt v = Ok compressed
    ∧ decompressObject rt compressed = Ok v.
Proof.
  intros Hlz Hempty Hprint Hparse.
  exists (compressToUTF16 rt text). split.
  - unfold compressObject. by rewrite Hprint.
  - unfold decompressObject. rewrite Hlz.
    destruct text as [|a text]; [|done].
    by destruct (Hempty v).
Qed.

Lemma decompress_compress_round_trip_witness :
  let v := JObj [("outputs", Examples.tagged 42)] in
  ∃ compressed,
    compressObject Host.runtime v = Ok compressed
    ∧ decompressObject Host.runtime compressed = Ok v.
Proof.
  apply (decompress_compress_round_trip Host.runtime
           (JObj [("outputs", Examples.tagged 42)])
           (match Host.stringify (JObj [("outputs", Examples.tagged 42)]) with
            | Ok s => s | Throw _ => "" end)).
  - reflexivity.
  - intros w. vm_compute. discriminate.
  - vm_compute. reflexivity.
  - vm_compute. reflexivity.
Defined.

(** ** Aggregation *)

(** C4.  With one task at a time, item 0 succeeding, item 1 failing and
    item 2 skipped, the batch is a single error whose entries are numbered
    by their position among the excluded outputs, not by item: the failure
    of item 1 is labelled 0 and the skipped item 2 adds the entry
    [ItemIndex: 1:: undefined]. *)
Theorem aggregated_error_numbers_excluded_outputs :
  fst <$> process Host.runtime (Host.rivet_with (Host.echo_failing_at 1))
            (Examples.input Examples.graph_plain Examples.three_empty 1 false)
            [Start; Resume 0; Start; Resume 1; Start] ∅
  = Some (Returned (BatchError
      "ItemIndex: 0:: Error running graph G.  ItemIndex: 1::  Inputs: {}  Message: boom; ItemIndex: 1:: undefined")).
Proof. by vm_compute. Qed.

(** ** Null items *)

(** A scan throws when the first element that does not pass throws. *)
Lemma some_st_throw {A S} (f : A → S → result (bool * S)) passed x rest st st' e :
  Js.some_st f passed st = Ok (false, st') →
  f x st' = Throw e →
  Js.some_st f (passed ++ x :: rest) st = Throw e.
Proof.
  revert st. induction passed as [|y ys IH]; intros st; simpl.
  - intros [= ->] Hx. by rewrite Hx.
  - destruct (f y st) as [[[] st1]|]; try done. apply IH.
Qed.

Lemma all_objects_pass_shape_check (l : list JsValue) :
  (∀ x, x ∈ l → Js.typeof x = "object") →
  existsb (fun s => negb (bool_decide (Js.typeof s = "object"))) l = false.
Proof.
  intros Hobj. apply not_true_is_false.
  intros (x & Hin%list_elem_of_In & Hx)%existsb_exists.
  by rewrite (Hobj x Hin) in Hx.
Qed.

(** C10, on a batch in which both of its conclusions fail.  With a number
    next to the [null], the shape check of line 309 rejects the batch and
    [process] returns its error outputs; with an item before the [null]
    that fails validation, the scan never reaches the [null] and [process]
    returns the validation error. *)
Lemma null_item_batch_rejected_without_exception :
  let rivet := Host.rivet_with Host.echo in
  fst <$> process Host.runtime rivet
            (Examples.input Examples.graph_plain [JNum 5; JNull] 1 false) [] ∅
  = Some (Returned (BatchError
      "Input array must be an array of objects.  Each object needs to be a DataValue.  A graph needs an object with keys that match the graph's input ports"))
  ∧ fst <$> process Host.runtime rivet
              (Examples.input Examples.graph_xy [JObj []; JNull] 1 false) [] ∅
    = Some (Returned (BatchError
        ("Input validation error::Missing keys required for graph: "
           +:+ Js.nl +:+ "            x; y"))).
Proof. by vm_compute. Qed.

(** C10, amended.  When every other element of the batch has [typeof]
    ["object"], the shape check lets a batch with a [null] through; when
    moreover every item before the [null] passes validation,
    [validateInputItem] throws the [TypeError] of [Object.keys(null)] and
    [process] ends with that exception on every schedule. *)
Theorem null_item_throws_TypeError (rt : Runtime) (rivet : Rivet)
    (inp : ProcessInput) (storage : PluginCache) (graph : NodeGraph)
    (snapshot : string) (passed rest : list JsValue) (sets : Problems)
    (schedule : list Event) :
  iteratorInputs inp = passed ++ JNull :: rest →
  (∀ x, x ∈ passed ++ rest → Js.typeof x = "object") →
  project_graphs inp !! graphId (graphRef inp) = Some graph →
  snapshot_of rt graph = Ok snapshot →
  Js.some_st (fun s st => validateInputItem rivet s graph st) passed no_problems
    = Ok (false, sets) →
  some_item_not_object inp = false
  ∧ ∃ e, is_TypeError e = true
         ∧ fst <$> process rt rivet inp schedule storage = Some (Thrown e).
Proof.
  intros Hitems Hobj Hgraph Hsnap Hpassed.
  assert (Hshape : some_item_not_object inp = false).
  { unfold some_item_not_object. rewrite Hitems, existsb_app. simpl.
    rewrite !all_objects_pass_shape_check; [done| |];
      intros x Hx; apply Hobj; set_solver. }
  split; [done|].
  exists (TypeError "Cannot convert undefined or null to object").
  split; [done|].
  unfold process, process_prelude. rewrite Hshape, Hgraph, Hsnap.
  unfold validate_batch. rewrite Hitems.
  by rewrite (some_st_throw _ passed JNull rest no_problems sets
                (TypeError "Cannot convert undefined or null to object")).
Qed.

Lemma null_item_throws_TypeError_witness :
  ∃ e, is_TypeError e = true
       ∧ fst <$> process Host.runtime (Host.rivet_with Host.echo)
                   (Examples.input Examples.graph_xy
                      [JObj [("x", Examples.tagged 1); ("y", Examples.tagged 2)];
                       JNull; JObj []] 1 false)
                   [] ∅
         = Some (Thrown e).
Proof.
  eapply (null_item_throws_TypeError Host.runtime (Host.rivet_with Host.echo)
            (Examples.input Examples.graph_xy
               [JObj [("x", Examples.tagged 1); ("y", Examples.tagged 2)];
                JNull; JObj []] 1 false)
            ∅ Examples.graph_xy
            (match snapshot_of Host.runtime Examples.graph_xy with
             | Ok s => s | Throw _ => "" end)
            [JObj [("x", Examples.tagged 1); ("y", Examples.tagged 2)]]
            [JObj []] no_problems []).
  - reflexivity.
  - intros x Hx. simpl in Hx. set_unfold in Hx. destruct Hx as [->|[->|[]]]; reflexivity.
  - reflexivity.
  - vm_compute. reflexivity.
  - vm_compute. reflexivity.
Defined.

(** ** Item outputs *)

Lemma assoc_set_prop_eq k v ps : Js.assoc k (Js.set_prop k v ps) = Some v.
Proof.
  induction ps as [|[k' v'] ps IH]; simpl.
  - by rewrite bool_decide_true.
  - case_bool_decide as Hk; simpl.
    + by rewrite bool_decide_true.
    + by rewrite bool_decide_false.
Qed.

Lemma assoc_set_prop_ne k k' v ps :
  k ≠ k' → Js.assoc k' (Js.set_prop k v ps) = Js.assoc k' ps.
Proof.
  intros Hne. induction ps as [|[k1 v1] ps IH]; simpl.
  - by rewrite bool_decide_false.
  - case_bool_decide as Hk; simpl.
    + subst k1. by rewrite !bool_decide_false.
    + by rewrite IH.
Qed.

(** What the [catch] block builds is read as excluded by line 473. *)
Lemma failed_output_excluded inp index itemOutput err inputs :
  is_excluded (failed_output inp index itemOutput err inputs) = Ok true.
Proof.
  unfold is_excluded, failed_output. simpl.
  rewrite assoc_set_prop_ne by done. by rewrite assoc_set_prop_eq.
Qed.

Lemma skipped_output_excluded : is_excluded skipped_output = Ok true.
Proof. reflexivity. Qed.

(** C3, on a single item with caching on.  A subgraph that succeeds with an
    output holding a [BigInt] makes [compressObject] throw, and the item
    ends excluded with an error message instead of carrying its result; a
    stored value that no longer decodes makes the item end the same way,
    without the subgraph being called. *)
Lemma codec_failure_example :
  let inp := Examples.input Examples.graph_plain [JObj []] 1 true in
  let key :=
    match JSON_stringify Host.runtime (iteratorInputData inp (JObj [])) with
    | Ok json => sha256 Host.runtime json | Throw _ => "" end in
  let snapshot :=
    match snapshot_of Host.runtime Examples.graph_plain with
    | Ok s => s | Throw _ => "" end in
  let corrupt : PluginCache :=
    {[ "node" := {| cache := {[ key := "zoops" ]}; expiryTimestamp := 5000;
                    graphSnapshot := Some snapshot |} ]} in
  callGraph_process (Host.rivet_with Examples.big) 0
    (iteratorInputData inp (JObj []))
    = Ok [("outputs", JObj [("type", JStr "object"); ("value", JBigInt 1)])]
  ∧ fst <$> process Host.runtime (Host.rivet_with Examples.big) inp
              [Start; Resume 0; Resume 0; Resume 0] ∅
    = Some (Returned (BatchError
        "ItemIndex: 0:: Error running graph G.  ItemIndex: 0::  Inputs: {}  Message: Do not know how to serialize a BigInt"))
  ∧ fst <$> process Host.runtime (Host.rivet_with Host.echo) inp
              [Start; Resume 0] corrupt
    = Some (Returned (BatchError
        "ItemIndex: 0:: Error running graph G.  ItemIndex: 0::  Inputs: {}  Message: SyntaxError: Unexpected token in JSON"))
  ∧ invoked <$> exec Host.runtime (Host.rivet_with Host.echo) inp
                  [Start; Resume 0]
                  (initial_state inp
                     {| cache := {[ key := "zoops" ]}; expiryTimestamp := 5000;
                        graphSnapshot := Some snapshot |})
    = Some [].
Proof. by vm_compute. Qed.

(** C3, amended.  Both codec failures are handled by the task's [catch]
    block (given that the item itself serializes for the message).  When
    [compressObject] throws after the subgraph succeeded, the item's output
    becomes the excluded one carrying the error message, the abort flag is
    set and nothing is stored.  When a stored value fails to decode, the
    item fails in the same way and the subgraph is not called. *)
Theorem codec_failure_fails_the_item (rt : Runtime) (rivet : Rivet)
    (inp : ProcessInput) (index : nat) (inputs : string) (s : QState) :
  JSON_stringify rt (item_at inp index) = Ok inputs →
  (∀ itemOutput json e,
     compressObject rt (JObj itemOutput) = Throw e →
     let s' := task_resume rt rivet inp index (HashStore itemOutput json) s in
     settled s'
       = settled s
           ++ [(index, Fulfilled (failed_output inp index itemOutput e inputs))]
     ∧ is_excluded (failed_output inp index itemOutput e inputs) = Ok true
     ∧ abortIteration s' = true
     ∧ cacheStorage s' = cacheStorage s)
  ∧ (∀ json compressed e,
       cache (cacheStorage s) !! sha256 rt json = Some compressed →
       compressed ≠ "" →
       decompressObject rt compressed = Throw e →
       let s' := task_resume rt rivet inp index (HashLookup json) s in
       settled s'
         = settled s ++ [(index, Fulfilled (failed_output inp index [] e inputs))]
       ∧ is_excluded (failed_output inp index [] e inputs) = Ok true
       ∧ abortIteration s' = true
       ∧ invoked s' = invoked s
       ∧ running s' = running s).
Proof.
  intros Hitem. split.
  - intros itemOutput json e Hc. simpl. rewrite Hc.
    unfold catch_block. rewrite Hitem. simpl.
    by rewrite failed_output_excluded.
  - intros json compressed e Hlook Hne Hd. simpl. rewrite Hlook.
    destruct compressed as [|a compressed]; [done|]. rewrite Hd.
    unfold catch_block. rewrite Hitem. simpl.
    by rewrite failed_output_excluded.
Qed.

Lemma codec_failure_fails_the_item_witness :
  let inp := Examples.input Examples.graph_plain [JObj []] 1 true in
  let s := initial_state inp
             {| cache := {[ "6b" := "zoops" ]}; expiryTimestamp := 0;
                graphSnapshot := None |} in
  abortIteration
    (task_resume Host.runtime (Host.rivet_with Examples.big) inp 0
       (HashStore [("outputs", JBigInt 1)] "k") s) = true
  ∧ invoked
      (task_resume Host.runtime (Host.rivet_with Examples.big) inp 0
         (HashLookup "k") s) = [].
Proof.
  pose (inp := Examples.input Examples.graph_plain [JObj []] 1 true).
  pose (s := initial_state inp
               {| cache := {[ "6b" := "zoops" ]}; expiryTimestamp := 0;
                  graphSnapshot := None |}).
  destruct (codec_failure_fails_the_item Host.runtime
              (Host.rivet_with Examples.big) inp 0 "{}" s eq_refl)
    as [Hencode Hdecode].
  split.
  - apply (Hencode [("outputs", JBigInt 1)] "k"
             (TypeError "Do not know how to serialize a BigInt")).
    reflexivity.
  - apply (Hdecode "k" "zoops"
             (Error "SyntaxError: Unexpected token in JSON")).
    + vm_compute. reflexivity.
    + discriminate.
    + vm_compute. reflexivity.
Defined.

(** ** The queue: what one task segment does to the shared state *)

Section Queue.

Variable rt : Runtime.
Variable rivet : Rivet.
Variable inp : ProcessInput.

#[local] Abbreviation well_formed := (well_formed inp).

Lemma task_start_segment index s : segment_of index s (task_start rt inp index s).
Proof. unfold segment_of. task_crush; eauto. Qed.

Lemma task_resume_segment index st s :
  segment_of index s (task_resume rt rivet inp index st s).
Proof. unfold segment_of. task_crush; eauto. Qed.

Lemma resolved_chunkSize_positive :
  Js.num_lt (Finite 0) (resolved_chunkSize inp) = true.
Proof.
  unfold resolved_chunkSize. cbv zeta.
  by destruct (Js.num_lt (Finite 0) (default _ _)) eqn:Hpos.
Qed.

(** Comparisons of counts with a limit. *)
Lemma num_lt_of_nat (n : nat) (q : Q) :
  Js.num_lt (Js.num_of_nat n) (Finite q) = true
  ↔ (inject_Z (Z.of_nat n) < q)%Q.
Proof.
  simpl. rewrite negb_true_iff. split.
  - intros Hle. apply Qnot_le_lt. intros Hq%Qle_bool_iff. congruence.
  - intros Hlt. apply not_true_is_false. intros Hq%Qle_bool_iff.
    by apply (Qlt_not_le _ _ Hlt).
Qed.

Lemma num_lt_of_nat_mono (k n : nat) (c : JsNumber) :
  k ≤ n → Js.num_lt (Js.num_of_nat n) c = true →
  Js.num_lt (Js.num_of_nat k) c = true.
Proof.
  intros Hkn. destruct c as [| | |q]; [done|done|done|].
  rewrite !num_lt_of_nat. intros Hlt.
  apply Qle_lt_trans with (inject_Z (Z.of_nat n)); [|done].
  rewrite <- Zle_Qle. lia.
Qed.

Lemma within_limit_mono (c : JsNumber) (k n : nat) :
  k ≤ n → within_limit c n → within_limit c k.
Proof.
  destruct k as [|k]; [done|]. destruct n as [|n]; [lia|]. simpl.
  intros Hkn. apply num_lt_of_nat_mono. lia.
Qed.

Lemma only_one_fits (c : JsNumber) (n : nat) :
  Js.num_ge (Finite 1) c = true →
  Js.num_lt (Js.num_of_nat n) c = true → n = 0.
Proof.
  destruct c as [| | |q]; [done|done|done|].
  rewrite num_lt_of_nat. simpl. intros Hq%Qle_bool_iff Hlt.
  pose proof (Qlt_le_trans _ _ _ Hlt Hq) as Hn.
  change 1%Q with (inject_Z 1) in Hn. rewrite <- Zlt_Qlt in Hn. lia.
Qed.

Lemma within_whole_limit (q : Q) (z : Z) (n : nat) :
  Js.num_lt (Finite 0) (Finite q) = true →
  (q == inject_Z z)%Q →
  within_limit (Finite q) n → (Z.of_nat n ≤ z)%Z.
Proof.
  intros Hpos Hz. destruct n as [|k].
  - intros _. change (Finite 0) with (Js.num_of_nat 0) in Hpos.
    apply num_lt_of_nat in Hpos. rewrite Hz in Hpos.
    rewrite <- Zlt_Qlt in Hpos. lia.
  - unfold within_limit. rewrite num_lt_of_nat, Hz, <- Zlt_Qlt. lia.
Qed.

Lemma without_length index r :
  length (without index r) ≤ length r.
Proof. unfold without. apply length_filter. Qed.

Lemma without_length_lt index r st :
  stage_of index r = Some st → length (without index r) < length r.
Proof.
  unfold without. induction r as [|[i st'] r IH]; simpl; [done|].
  case_bool_decide as Hi.
  - intros _. rewrite filter_cons_False by (simpl; tauto).
    pose proof (length_filter (fun p : nat * Stage => p.1 ≠ index) r). lia.
  - intros H. rewrite filter_cons_True by done. simpl. specialize (IH H). lia.
Qed.

(** One event, unfolded. *)
Lemma step_Start s s' :
  step rt rivet inp Start s = Some s' →
  ∃ index rest,
    waiting s = index :: rest
    ∧ Js.num_lt (Js.num_of_nat (length (running s))) (resolved_chunkSize inp)
      = true
    ∧ s' = task_start rt inp index (set_waiting rest s).
Proof.
  unfold step. destruct (waiting s) as [|index rest]; [done|].
  destruct (Js.num_lt (Js.num_of_nat (length (running s)))
              (resolved_chunkSize inp)) eqn:Hlt; [|done].
  intros [= <-]. eauto.
Qed.

Lemma step_Resume index s s' :
  step rt rivet inp (Resume index) s = Some s' →
  ∃ st,
    stage_of index (running s) = Some st
    ∧ s' = task_resume rt rivet inp index st
             (set_running (without index (running s)) s).
Proof.
  simpl. destruct (stage_of index (running s)) as [st|]; [|done].
  intros [= <-]. eauto.
Qed.

(** A property that holds initially and is kept by every event holds
    after every schedule. *)
Lemma exec_invariant (P : QState → Prop) schedule s s' :
  (∀ ev s1 s2, P s1 → step rt rivet inp ev s1 = Some s2 → P s2) →
  P s → exec rt rivet inp schedule s = Some s' → P s'.
Proof.
  intros Hstep. revert s. induction schedule as [|ev schedule IH]; intros s Hs; simpl.
  - by intros [= <-].
  - destruct (step rt rivet inp ev s) as [s1|] eqn:Hev; [|done].
    apply IH. by eapply Hstep.
Qed.

Lemma exec_app schedule1 schedule2 s :
  exec rt rivet inp (schedule1 ++ schedule2) s
  = exec rt rivet inp schedule1 s ≫= exec rt rivet inp schedule2.
Proof.
  revert s. induction schedule1 as [|ev tr IH]; intros s; simpl; [done|].
  by destruct (step rt rivet inp ev s).
Qed.

(** *** The concurrency bound *)

Lemma step_keeps_bound ev s s' :
  within_limit (resolved_chunkSize inp) (length (running s)) →
  step rt rivet inp ev s = Some s' →
  within_limit (resolved_chunkSize inp) (length (running s')).
Proof.
  intros Hle. destruct ev as [|index|].
  - intros (index & rest & _ & Hlt & ->)%step_Start.
    destruct (task_start_segment index (set_waiting rest s))
      as (_ & [(st & -> & _)|(r & -> & _)]); simpl; [|done].
    rewrite length_app. simpl. by rewrite Nat.add_1_r.
  - intros (st & Hst%without_length_lt & ->)%step_Resume.
    destruct (task_resume_segment index st
                (set_running (without index (running s)) s))
      as (_ & [(st' & -> & _)|(r & -> & _)]); simpl;
      [rewrite length_app; simpl|];
      apply (within_limit_mono _ _ (length (running s))); [lia|done|lia|done].
  - by intros [= <-].
Qed.

(** *** Well-formed queue states *)

Lemma stage_of_elem index r st :
  stage_of index r = Some st → (index, st) ∈ r.
Proof.
  induction r as [|[i st'] r IH]; simpl; [done|].
  case_bool_decide as Hi.
  - intros [= ->]. subst. left.
  - intros H. right. by apply IH.
Qed.

Lemma without_absent index (r : list (nat * Stage)) :
  index ∉ r.*1 → without index r = r.
Proof.
  unfold without. induction r as [|[i st] r IH]; simpl; [done|].
  intros Hnot. rewrite filter_cons_True by (simpl; set_solver).
  f_equal. apply IH. set_solver.
Qed.

Lemma without_subseteq index (r : list (nat * Stage)) :
  (without index r).*1 ⊆ r.*1.
Proof.
  unfold without. intros i (p & -> & Hp)%list_elem_of_fmap.
  apply list_elem_of_filter in Hp as [_ Hp]. by apply list_elem_of_fmap_2.
Qed.

Lemma without_perm index r st :
  NoDup r.*1 → stage_of index r = Some st →
  r.*1 ≡ₚ index :: (without index r).*1.
Proof.
  unfold without. induction r as [|[i st'] r IH]; simpl; [done|].
  intros [Hi Hr]%NoDup_cons. case_bool_decide as Heq.
  - intros _. subst i. rewrite filter_cons_False by (simpl; tauto).
    fold (without index r). by rewrite without_absent.
  - intros H. rewrite filter_cons_True by done. simpl.
    rewrite (IH Hr H) at 1. apply Permutation_swap.
Qed.

(** What a task segment may change. *)
Lemma task_start_effect index s :
  let s' := task_start rt inp index s in
  (if abortIteration s
   then s' = settle index (Fulfilled skipped_output) s
   else (invoked s' = invoked s ∨ invoked s' = invoked s ++ [index]))
  ∧ (abortIteration s = true → abortIteration s' = true).
Proof. task_crush; eauto. Qed.

Lemma task_resume_effect index st s :
  let s' := task_resume rt rivet inp index st s in
  (invoked s' = invoked s ∨ invoked s' = invoked s ++ [index])
  ∧ (abortIteration s = true → abortIteration s' = true).
Proof. task_crush; eauto. Qed.

Lemma step_indices ev s s' :
  NoDup (indices s) → step rt rivet inp ev s = Some s' →
  indices s' ≡ₚ indices s.
Proof.
  intros Hnd. unfold indices in *. destruct ev as [|index|].
  - intros (index & rest & Hw & _ & ->)%step_Start.
    destruct (task_start_segment index (set_waiting rest s))
      as (-> & [(st & -> & ->)|(r & -> & ->)]); simpl; rewrite Hw, ?fmap_app;
      simpl; solve_Permutation.
  - intros (st & Hst & ->)%step_Resume.
    apply NoDup_app in Hnd as (_ & _ & [Hr _]%NoDup_app).
    pose proof (without_perm index _ st Hr Hst) as Hperm.
    destruct (task_resume_segment index st
                (set_running (without index (running s)) s))
      as (-> & [(st' & -> & ->)|(r & -> & ->)]); simpl; rewrite ?fmap_app;
      simpl; rewrite Hperm; solve_Permutation.
  - by intros [= <-].
Qed.

Lemma well_formed_NoDup s : well_formed s → NoDup (indices s).
Proof. intros [Hperm _]. rewrite Hperm. apply NoDup_seq. Qed.

Lemma initial_state_well_formed entry : well_formed (initial_state inp entry).
Proof.
  split; simpl.
  - unfold indices. simpl. by rewrite app_nil_r.
  - set_solver.
Qed.

Lemma step_well_formed ev s s' :
  well_formed s → step rt rivet inp ev s = Some s' → well_formed s'.
Proof.
  intros Hwf Hstep. pose proof (well_formed_NoDup s Hwf) as Hnd.
  pose proof (step_indices ev s s' Hnd Hstep) as Hperm.
  destruct Hwf as [Hseq Hinv]. split; [by rewrite Hperm|].
  assert (NoDup (indices s')) as Hnd' by by rewrite Hperm.
  unfold indices in Hnd'. destruct ev as [|index|].
  - apply step_Start in Hstep as (index & rest & Hw & _ & ->).
    destruct (task_start_segment index (set_waiting rest s)) as (Hw' & Hseg).
    destruct (task_start_effect index (set_waiting rest s)) as [Heff _].
    rewrite Hw' in *. simpl in *. rewrite Hw in Hinv.
    assert (index ∉ rest) as Hfresh.
    { apply NoDup_app in Hnd' as (_ & Hdisj & _). intros Hin.
      apply (Hdisj index Hin).
      destruct Hseg as [(st & -> & _)|(r & _ & ->)]; rewrite ?fmap_app; set_solver. }
    intros i Hi.
    destruct (abortIteration s).
    + rewrite Heff in Hi. simpl in Hi. specialize (Hinv i Hi). set_solver.
    + destruct Heff as [Heff|Heff]; rewrite Heff in Hi;
        [specialize (Hinv i Hi); set_solver|].
      apply elem_of_app in Hi as [Hi|Hi]; [specialize (Hinv i Hi)|]; set_solver.
  - apply step_Resume in Hstep as (st & Hst & ->).
    destruct (task_resume_segment index st
                (set_running (without index (running s)) s)) as (Hw' & Hseg).
    destruct (task_resume_effect index st
                (set_running (without index (running s)) s)) as [Heff _].
    rewrite Hw' in *. simpl in *.
    assert (index ∉ waiting s) as Hfresh.
    { apply NoDup_app in Hnd' as (_ & Hdisj & _). intros Hin.
      apply (Hdisj index Hin).
      destruct Hseg as [(st' & -> & _)|(r & _ & ->)]; rewrite ?fmap_app; set_solver. }
    intros i Hi. destruct Heff as [Heff|Heff]; rewrite Heff in Hi; [by apply Hinv|].
    apply elem_of_app in Hi as [Hi|Hi]; [by apply Hinv|]. set_solver.
  - injection Hstep as <-. simpl. exact Hinv.
Qed.

Lemma exec_well_formed schedule s s' :
  well_formed s → exec rt rivet inp schedule s = Some s' → well_formed s'.
Proof. apply exec_invariant. intros ev s1 s2. apply step_well_formed. Qed.

(** *** The abort flag *)

Lemma step_latched ev s s' :
  step rt rivet inp ev s = Some s' →
  abortIteration s = true → abortIteration s' = true.
Proof.
  destruct ev as [|index|].
  - intros (index & rest & _ & _ & ->)%step_Start Habort.
    by apply task_start_effect.
  - intros (st & _ & ->)%step_Resume Habort. by apply task_resume_effect.
  - by intros [= <-].
Qed.

Lemma step_settled_prefix ev s s' :
  step rt rivet inp ev s = Some s' → settled s `prefix_of` settled s'.
Proof.
  destruct ev as [|index|].
  - intros (index & rest & _ & _ & ->)%step_Start.
    destruct (task_start_segment index (set_waiting rest s))
      as (_ & [(st & _ & ->)|(r & _ & ->)]); simpl; [done|by eexists].
  - intros (st & _ & ->)%step_Resume.
    destruct (task_resume_segment index st
                (set_running (without index (running s)) s))
      as (_ & [(st' & _ & ->)|(r & _ & ->)]); simpl; [done|by eexists].
  - by intros [= <-].
Qed.

(** Resuming a task does not read the flag. *)
Lemma resume_ignores_flag index s :
  step rt rivet inp (Resume index) (set_abortIteration s)
  = set_abortIteration <$> step rt rivet inp (Resume index) s.
Proof.
  simpl. destruct (stage_of index (running s)) as [st|]; [|done]. simpl.
  f_equal. task_crush; first [reflexivity | congruence].
Qed.

(** A task whose [catch] block fulfils its promise has set the flag. *)
Lemma catch_block_sets_flag index itemOutput err s v :
  settled (catch_block rt inp index itemOutput err s)
    = settled s ++ [(index, Fulfilled v)] →
  abortIteration (catch_block rt inp index itemOutput err s) = true.
Proof.
  unfold catch_block. destruct (JSON_stringify rt (item_at inp index)); simpl.
  - done.
  - intros H%app_inv_head. by injection H.
Qed.

Lemma step_skipping s1 ev s s' :
  (∀ i, i ∈ waiting s1 → i ∉ (running s1).*1) →
  skipping s1 s → step rt rivet inp ev s = Some s' → skipping s1 s'.
Proof.
  intros Hdisj (Habort & Hrun & Hinv & Hout & Hwait) Hstep.
  destruct ev as [|index|].
  - apply step_Start in Hstep as (index & rest & Hw & _ & ->).
    destruct (task_start_effect index (set_waiting rest s)) as [Heff _].
    simpl in Heff. rewrite Habort in Heff. rewrite Heff. clear Heff.
    unfold skipping. simpl. rewrite Hw in Hwait.
    split_and!; [done|done|done| |set_solver].
    intros i r Hi [Hr|Hr]%elem_of_app; [by eapply Hout|].
    apply list_elem_of_singleton in Hr. by injection Hr as _ ->.
  - apply step_Resume in Hstep as (st & Hst & ->).
    assert (index ∈ (running s).*1) as Hidx.
    { apply stage_of_elem in Hst. by apply (list_elem_of_fmap_2 fst) in Hst. }
    pose proof (without_subseteq index (running s)) as Hsub.
    set (s0 := set_running (without index (running s)) s).
    destruct (task_resume_segment index st s0) as (Hw' & Hseg).
    destruct (task_resume_effect index st s0) as [Heff Hlatch].
    unfold skipping. rewrite Hw'. simpl.
    split_and!; [by apply Hlatch| | | |done].
    + destruct Hseg as [(st' & -> & _)|(r & -> & _)]; simpl;
        rewrite ?fmap_app; set_solver.
    + intros i Hi. destruct Heff as [Heff|Heff]; rewrite Heff in Hi; simpl in Hi;
        [by apply Hinv|].
      apply elem_of_app in Hi as [Hi|Hi]; [by apply Hinv|]. set_solver.
    + intros i r Hi Hr.
      destruct Hseg as [(st' & _ & Hs)|(r' & _ & Hs)]; rewrite Hs in Hr;
        simpl in Hr; [by eapply Hout|].
      apply elem_of_app in Hr as [Hr|Hr]; [by eapply Hout|].
      apply list_elem_of_singleton in Hr. injection Hr as -> ->.
      destruct (Hdisj index Hi). set_solver.
  - injection Hstep as <-. done.
Qed.

(** The abort flag as a latch.  The [catch] block of a failed task sets
    [abortIteration] whenever it records the failure, and a subgraph
    invocation that throws ends that way when the item serializes for the
    message.  From any reachable state in which the flag is set, for the
    rest of the invocation: the flag stays set; the outcomes already
    settled stay as they are; a task that was still waiting is never
    invoked and, once settled, has the skipped output; only tasks already
    in flight may still call the subgraph, and resuming them does not
    depend on the flag. *)
Theorem abort_flag_latched (entry : CacheStorage) (before after : list Event)
    (s1 s2 : QState) :
  exec rt rivet inp before (initial_state inp entry) = Some s1 →
  abortIteration s1 = true →
  exec rt rivet inp after s1 = Some s2 →
  (∀ index itemOutput err s v,
     settled (catch_block rt inp index itemOutput err s)
       = settled s ++ [(index, Fulfilled v)] →
     abortIteration (catch_block rt inp index itemOutput err s) = true)
  ∧ (∀ index s e inputs,
       stage_of index (running s) = Some Processing →
       callGraph_process rivet index (iteratorInputData inp (item_at inp index))
         = Throw e →
       JSON_stringify rt (item_at inp index) = Ok inputs →
       ∃ s', step rt rivet inp (Resume index) s = Some s'
             ∧ abortIteration s' = true
             ∧ settled s'
               = settled s
                   ++ [(index, Fulfilled (failed_output inp index [] e inputs))])
  ∧ abortIteration s2 = true
  ∧ (settled s1 `prefix_of` settled s2)
  ∧ (∀ i, i ∈ waiting s1 →
          (i ∉ invoked s2)
          ∧ (∀ r, (i, r) ∈ settled s2 → r = Fulfilled skipped_output))
  ∧ (∀ i, i ∈ invoked s2 → i ∈ invoked s1 ∨ i ∈ (running s1).*1)
  ∧ (∀ index s,
       step rt rivet inp (Resume index) (set_abortIteration s)
       = set_abortIteration <$> step rt rivet inp (Resume index) s).
Proof.
  intros Hbefore Habort Hafter.
  pose proof (exec_well_formed _ _ _ (initial_state_well_formed entry) Hbefore)
    as Hwf.
  pose proof (well_formed_NoDup _ Hwf) as Hnd. unfold indices in Hnd.
  apply NoDup_app in Hnd as (_ & Hdisj & _).
  assert (∀ i, i ∈ waiting s1 → i ∉ (running s1).*1) as Hwr by set_solver.
  assert (skipping s1 s2) as (Hflag & _ & Hinv & Hout & _).
  { eapply (exec_invariant (skipping s1)); [| |exact Hafter].
    - intros ev sa sb. by apply step_skipping.
    - split_and!; [done|done|tauto| |done].
      intros i r Hi Hr. apply (list_elem_of_fmap_2 fst) in Hr.
      destruct (Hdisj i Hi). set_solver. }
  split_and!.
  - apply catch_block_sets_flag.
  - intros index s e inputs Hst Hcall Hitem. simpl. rewrite Hst.
    eexists. split; [done|]. simpl. rewrite Hcall.
    unfold catch_block. rewrite Hitem. done.
  - done.
  - eapply (exec_invariant (fun s => settled s1 `prefix_of` settled s));
      [| |exact Hafter]; [|done].
    intros ev sa sb Hpre Hstep. etrans; [exact Hpre|].
    by eapply step_settled_prefix.
  - intros i Hi. split; [|by intros r; apply Hout].
    intros [Hin|Hin]%Hinv; [|by destruct (Hwr i Hi)].
    destruct Hwf as [_ Hwf]. by destruct (Hwf i Hin).
  - done.
  - apply resume_ignores_flag.
Qed.

(** *** The tasks in flight *)

Lemma step_processing_invoked ev s s' :
  (∀ i, (i, Processing) ∈ running s → i ∈ invoked s) →
  step rt rivet inp ev s = Some s' →
  ∀ i, (i, Processing) ∈ running s' → i ∈ invoked s'.
Proof.
  intros Hinv. destruct ev as [|index|].
  - intros (index & rest & _ & _ & ->)%step_Start i.
    unfold task_start, catch_block, call_graph, suspend, settle, set_running,
      set_waiting, set_abortIteration.
    repeat case_match; simpl; intros Hi; try (by apply Hinv).
    + apply elem_of_app in Hi as [Hi|Hi%list_elem_of_singleton];
        [by apply Hinv|done].
    + apply elem_of_app in Hi as [Hi|Hi%list_elem_of_singleton].
      * apply elem_of_app. left. by apply Hinv.
      * injection Hi as ->. apply elem_of_app. right. left.
  - intros (st & _ & ->)%step_Resume i.
    assert (∀ i, (i, Processing) ∈ without index (running s) → i ∈ invoked s)
      as Hrest.
    { intros k Hk. apply Hinv. unfold without in Hk.
      by apply list_elem_of_filter in Hk as [_ Hk]. }
    unfold task_resume, catch_block, call_graph, suspend, settle, cache_set,
      set_running, set_waiting, set_abortIteration.
    repeat case_match; simpl; intros Hi; try (by apply Hrest).
    all: apply elem_of_app in Hi as [Hi|Hi%list_elem_of_singleton];
      [|try done].
    all: try (by apply Hrest).
    all: try (apply elem_of_app; left; by apply Hrest).
    all: injection Hi as ->; apply elem_of_app; right; left.
  - intros [= <-]. exact Hinv.
Qed.


End Queue.



Lemma abort_flag_latched_witness :
  let inp := Examples.input Examples.graph_plain Examples.three_empty 1 false in
  let rivet := Host.rivet_with (Host.echo_failing_at 1) in
  let s1 := state_after Host.runtime rivet inp [Start; Resume 0; Start; Resume 1]
              (initial_state inp empty_entry) in
  let s2 := state_after Host.runtime rivet inp [Start] s1 in
  waiting s1 = [2]
  ∧ abortIteration s2 = true
  ∧ (2 ∉ invoked s2)
  ∧ ∀ r, (2, r) ∈ settled s2 → r = Fulfilled skipped_output.
Proof.
  pose (inp := Examples.input Examples.graph_plain Examples.three_empty 1 false).
  pose (rivet := Host.rivet_with (Host.echo_failing_at 1)).
  pose (s1 := state_after Host.runtime rivet inp [Start; Resume 0; Start; Resume 1]
                (initial_state inp empty_entry)).
  pose (s2 := state_after Host.runtime rivet inp [Start] s1).
  destruct (abort_flag_latched Host.runtime rivet inp empty_entry
              [Start; Resume 0; Start; Resume 1] [Start] s1 s2)
    as (_ & _ & Hflag & _ & Hskipped & _).
  - vm_compute. reflexivity.
  - vm_compute. reflexivity.
  - vm_compute. reflexivity.
  - split; [reflexivity|]. split; [exact Hflag|].
    apply (Hskipped 2). vm_compute. left.
Defined.

(** C8.  A failing task whose item does not serialize leaves the flag
    unset.  The subgraph throws for item 0, whose value is a [BigInt]: in
    the [catch] block [JSON.stringify(item)] throws before
    [abortIteration = true] is reached, the promise of item 0 rejects and
    the flag stays [false]; the task of item 1, started afterwards, is not
    skipped but calls the subgraph, and [process] ends with the
    [TypeError]. *)
Theorem failed_task_leaves_flag_unset :
  let inp :=
    Examples.input Examples.graph_plain [Examples.big_item; JObj []] 1 false in
  let rivet := Host.rivet_with (Host.echo_failing_at 0) in
  let unserializable := TypeError "Do not know how to serialize a BigInt" in
  validate_batch rivet inp Examples.graph_plain = Ok (false, no_problems)
  ∧ call_of rivet inp 0 = Throw (Error "boom")
  ∧ (fun s => (abortIteration s, settled s))
      <$> exec Host.runtime rivet inp [Start; Resume 0]
            (initial_state inp empty_entry)
    = Some (false, [(0, Rejected unserializable)])
  ∧ (fun s => (abortIteration s, invoked s))
      <$> exec Host.runtime rivet inp [Start; Resume 0; Start; Resume 1]
            (initial_state inp empty_entry)
    = Some (false, [0; 1])
  ∧ fst <$> process Host.runtime rivet inp [Start; Resume 0; Start; Resume 1] ∅
    = Some (Thrown unserializable).
Proof. by vm_compute. Qed.

(** ** Every invocation finishes *)

Section Termination.

Variable rt : Runtime.
Variable rivet : Rivet.
Variable inp : ProcessInput.

Lemma stages_work_app r1 r2 :
  stages_work (r1 ++ r2) = stages_work r1 + stages_work r2.
Proof. induction r1 as [|[i st] r1 IH]; simpl; lia. Qed.

Lemma stages_work_without index r :
  stages_work (without index r) ≤ stages_work r.
Proof.
  unfold without. induction r as [|[i st] r IH]; simpl; [done|].
  destruct (decide (i = index)) as [->|Hne].
  - rewrite filter_cons_False by (simpl; tauto). lia.
  - rewrite filter_cons_True by done. simpl. lia.
Qed.

Lemma without_head index st r :
  without index ((index, st) :: r) = without index r.
Proof. unfold without. by rewrite filter_cons_False by (simpl; tauto). Qed.

Lemma task_start_work index s :
  waiting (task_start rt inp index s) = waiting s
  ∧ stages_work (running (task_start rt inp index s))
    ≤ stages_work (running s) + 3.
Proof.
  task_crush; (split; [done|]); rewrite ?stages_work_app; simpl; lia.
Qed.

Lemma task_resume_work index st s :
  waiting (task_resume rt rivet inp index st s) = waiting s
  ∧ stages_work (running (task_resume rt rivet inp index st s))
    < stages_work (running s) + weight st.
Proof.
  task_crush; (split; [done|]); rewrite ?stages_work_app; simpl; lia.
Qed.

(** From every state some schedule without the abort signal empties the
    queue. *)
Lemma queue_drains s :
  ∃ schedule s',
    (AbortSignal ∉ schedule)
    ∧ exec rt rivet inp schedule s = Some s' ∧ idle s' = true.
Proof.
  remember (work_left s) as m eqn:Hm. revert s Hm.
  induction m as [m IH] using lt_wf_ind. intros s ->.
  destruct (running s) as [|[index st] r] eqn:Hr.
  - destruct (waiting s) as [|index rest] eqn:Hw.
    + exists [], s. split_and!; [set_solver|done|].
      unfold idle. by rewrite Hw, Hr.
    + pose proof (resolved_chunkSize_positive inp) as Hpos.
      assert (step rt rivet inp Start s
              = Some (task_start rt inp index (set_waiting rest s))) as Hstep.
      { unfold step. rewrite Hw, Hr. simpl length.
        change (Js.num_of_nat 0) with (Finite 0). by rewrite Hpos. }
      destruct (task_start_work index (set_waiting rest s)) as [Hw' Hwork].
      destruct (IH (work_left (task_start rt inp index (set_waiting rest s))))
        with (s := task_start rt inp index (set_waiting rest s))
        as (schedule & s' & Hno & Hexec & Hidle); [|done|].
      { unfold work_left. rewrite Hw', Hw, Hr. simpl in *. rewrite Hr in Hwork.
        simpl in Hwork. lia. }
      exists (Start :: schedule), s'. split_and!; [set_solver| |done].
      simpl in *. by rewrite Hstep.
  - assert (stage_of index (running s) = Some st) as Hst.
    { rewrite Hr. simpl. by rewrite bool_decide_true. }
    set (s0 := set_running (without index (running s)) s).
    assert (step rt rivet inp (Resume index) s
            = Some (task_resume rt rivet inp index st s0)) as Hstep.
    { simpl. by rewrite Hst. }
    destruct (task_resume_work index st s0) as [Hw' Hwork].
    assert (stages_work (running s0) + weight st ≤ stages_work (running s))
      as Hle.
    { subst s0. simpl. rewrite Hr, without_head.
      pose proof (stages_work_without index r). simpl. lia. }
    destruct (IH (work_left (task_resume rt rivet inp index st s0)))
      with (s := task_resume rt rivet inp index st s0)
      as (schedule & s' & Hno & Hexec & Hidle); [|done|].
    { unfold work_left. rewrite Hw'. change (waiting s0) with (waiting s). lia. }
    exists (Resume index :: schedule), s'. split_and!; [set_solver| |done].
    change (exec rt rivet inp (Resume index :: schedule) s)
      with (match step rt rivet inp (Resume index) s with
            | Some s1 => exec rt rivet inp schedule s1
            | None => None
            end).
    by rewrite Hstep.
Qed.

End Termination.

(** ** From an idle queue to the outputs *)

Section Finishing.

Variable rt : Runtime.
Variable rivet : Rivet.
Variable inp : ProcessInput.

Lemma first_rejection_None l : first_rejection l = None ↔ Forall fulfilled l.
Proof.
  induction l as [|[i [v|e]] l IH]; simpl.
  - split; [constructor|done].
  - rewrite IH. split.
    + intros H. constructor; [by exists v|done].
    + by intros [_ H]%Forall_cons.
  - split; [done|]. by intros [[v [=]] _]%Forall_cons.
Qed.

Lemma output_of_elem index l v :
  output_of index l = Some v → (index, Fulfilled v) ∈ l.
Proof.
  induction l as [|[i r] l IH]; simpl; [done|].
  case_bool_decide as Hi.
  - destruct r as [w|e]; [|done]. intros [= ->]. subst. left.
  - intros H. right. by apply IH.
Qed.

Lemma output_of_is_Some index l :
  Forall fulfilled l → index ∈ l.*1 → is_Some (output_of index l).
Proof.
  induction l as [|[i r] l IH]; simpl; [set_solver|].
  intros [[v Hv] Hl]%Forall_cons Hin. simpl in Hv. subst r.
  case_bool_decide as Hi; [done|]. apply IH; [done|set_solver].
Qed.

Lemma idle_all_settled s index :
  well_formed inp s → idle s = true →
  index < length (iteratorInputs inp) → index ∈ (settled s).*1.
Proof.
  intros [Hperm _] [Hw Hr]%andb_prop Hlt.
  apply bool_decide_eq_true in Hw, Hr. unfold indices in Hperm.
  rewrite Hw, Hr in Hperm. simpl in Hperm. rewrite Hperm.
  apply elem_of_seq. lia.
Qed.

Lemma process_finish_total storage s :
  well_formed inp s → idle s = true →
  is_Some (process_finish inp storage s).
Proof.
  intros Hwf Hidle. unfold process_finish. rewrite Hidle.
  destruct (first_rejection (settled s)) as [e|] eqn:Hrej; [done|].
  apply first_rejection_None in Hrej.
  assert (is_Some (iteratorOutputs inp s)) as [outputs ->]; [|done].
  apply mapM_is_Some, Forall_forall. intros index Hi%elem_of_seq. simpl.
  apply output_of_is_Some; [done|]. apply idle_all_settled; [done|done|lia].
Qed.

(** [process] has an outcome: some schedule, without the abort signal,
    is a complete run. *)
Lemma process_total storage :
  ∃ schedule,
    (AbortSignal ∉ schedule)
    ∧ is_Some (process rt rivet inp schedule storage).
Proof.
  unfold process.
  destruct (process_prelude rt rivet inp storage) as [out storage'|s0] eqn:Hpre.
  - exists []. split; [set_solver|done].
  - apply process_prelude_dispatch in Hpre
      as (graph & snapshot & _ & _ & _ & _ & ->).
    destruct (queue_drains rt rivet inp (initial_state inp
                (invalideCacheIfChanges
                   (getOrCreate inp storage snapshot) snapshot)))
      as (schedule & s' & Hno & Hexec & Hidle).
    exists schedule. split; [done|].
    destruct (new_PQueue rt inp) as [[]|e]; [|done]. rewrite Hexec. simpl.
    apply process_finish_total; [|done].
    eapply exec_well_formed; [|exact Hexec]. apply initial_state_well_formed.
Qed.

Lemma aggregate_all_good values :
  Forall (fun v => is_excluded v = Ok false) values →
  aggregate values = Returned (BatchResult values).
Proof.
  intros Hall. unfold aggregate.
  assert (Js.some_st (fun f (_ : unit) => b ← is_excluded f; Ok (b, ()))
            values () = Ok (false, ())) as ->; [|done].
  induction Hall as [|v values Hv _ IH]; simpl; [done|]. by rewrite Hv.
Qed.

Lemma exec_invariant_without_abort (P : QState → Prop) schedule s s' :
  AbortSignal ∉ schedule →
  (∀ ev s1 s2, ev ≠ AbortSignal → P s1 →
               step rt rivet inp ev s1 = Some s2 → P s2) →
  P s → exec rt rivet inp schedule s = Some s' → P s'.
Proof.
  intros Hno Hstep. revert s.
  induction schedule as [|ev schedule IH]; intros s Hs; simpl.
  - by intros [= <-].
  - destruct (step rt rivet inp ev s) as [s1|] eqn:Hev; [|done].
    apply IH; [set_solver|]. eapply Hstep; [|done|done]. set_solver.
Qed.

End Finishing.

(** ** Runs in which every task succeeds *)

Section Success.

Variable rt : Runtime.
Variable rivet : Rivet.
Variable inp : ProcessInput.

(** The entry the tasks start from. *)
Variable entry0 : CacheStorage.

#[local] Abbreviation call_of := (call_of rivet inp).
#[local] Abbreviation key_text_of := (key_text_of rt inp).
#[local] Abbreviation decodes_well := (decodes_well rt).
#[local] Abbreviation cached_under := (cached_under rt rivet inp entry0).
#[local] Abbreviation result_for := (result_for rt rivet inp entry0).
#[local] Abbreviation stage_ok := (stage_ok rt rivet inp).
#[local] Abbreviation settled_ok := (settled_ok rt rivet inp entry0).
#[local] Abbreviation succeeding := (succeeding rt rivet inp entry0).

(** Every subgraph invocation succeeds with an output that is not marked
    excluded. *)
Hypothesis invocations_succeed :
  ∀ i, i < length (iteratorInputs inp) →
       ∃ itemOutput, call_of i = Ok itemOutput
                     ∧ is_excluded (JObj itemOutput) = Ok false.

(** With caching on, no cache step fails: the key text of every item
    serializes, every output encodes to a value that decodes well, and the
    values already in the entry decode well. *)
Hypothesis keys_serialize :
  caching inp = true →
  ∀ i, i < length (iteratorInputs inp) → ∃ json, key_text_of i = Ok json.

Hypothesis outputs_encode :
  caching inp = true →
  ∀ i itemOutput, i < length (iteratorInputs inp) →
    call_of i = Ok itemOutput →
    ∃ c, compressObject rt (JObj itemOutput) = Ok c ∧ decodes_well c.

Hypothesis entry_decodes :
  caching inp = true → ∀ k c, cache entry0 !! k = Some c → decodes_well c.

Lemma initial_state_succeeding : succeeding (initial_state inp entry0).
Proof.
  unfold succeeding. split_and!; simpl; [done|constructor|constructor|].
  intros Hc k c Hk. split; [by eapply entry_decodes|by left].
Qed.

Lemma index_in_range s i :
  well_formed inp s → i ∈ indices s → i < length (iteratorInputs inp).
Proof.
  intros [Hperm _] Hi. rewrite Hperm in Hi. apply elem_of_seq in Hi. lia.
Qed.

Lemma Forall_without index (P : nat * Stage → Prop) r :
  Forall P r → Forall P (without index r).
Proof.
  rewrite !Forall_forall. intros H p Hp%list_elem_of_filter. apply H, Hp.
Qed.

Lemma task_start_succeeding index s :
  index < length (iteratorInputs inp) →
  succeeding s → succeeding (task_start rt inp index s).
Proof.
  intros Hlt (Habort & Hrun & Hset & Hcache).
  unfold task_start. rewrite Habort.
  destruct (decide (caching inp = true)) as [Hc|Hc%not_true_is_false];
    rewrite Hc.
  - destruct (keys_serialize Hc index Hlt) as [json Hjson].
    pose proof Hjson as Hjson'. unfold key_text_of in Hjson'. rewrite Hjson'.
    unfold succeeding. split_and!; simpl; [done| |done|done].
    apply Forall_app. split; [done|]. by repeat constructor.
  - unfold succeeding. split_and!; simpl; [done| |done|done].
    apply Forall_app. split; [done|]. by repeat constructor.
Qed.

Lemma call_graph_succeeding index s :
  succeeding s → succeeding (call_graph index s).
Proof.
  intros (Habort & Hrun & Hset & Hcache).
  unfold succeeding. split_and!; simpl; [done| |done|done].
  apply Forall_app. split; [done|]. by repeat constructor.
Qed.

Lemma settle_succeeding index v s :
  is_excluded v = Ok false → result_for index v →
  succeeding s → succeeding (settle index (Fulfilled v) s).
Proof.
  intros Hgood Hfor (Habort & Hrun & Hset & Hcache).
  unfold succeeding. split_and!; simpl; [done|done| |done].
  apply Forall_app. split; [done|]. constructor; [|constructor].
  by exists v.
Qed.

Lemma task_resume_succeeding index st s :
  index < length (iteratorInputs inp) →
  stage_ok index st →
  succeeding s → succeeding (task_resume rt rivet inp index st s).
Proof.
  intros Hlt Hst Hs.
  destruct (invocations_succeed index Hlt) as (itemOutput & Hcall & Hgood).
  destruct st as [json| |stored json]; simpl in Hst.
  - destruct Hst as [Hc Hjson]. simpl.
    pose proof (call_graph_succeeding index s Hs) as Hcalled.
    destruct (cache (cacheStorage s) !! sha256 rt json) as [c|] eqn:Hk; [|done].
    destruct Hs as (Habort & Hrun & Hset & Hcache).
    destruct (Hcache Hc _ _ Hk) as [Hwell Hfrom].
    destruct c as [|a c]; [done|].
    destruct Hwell as [|(v & Hv & Hvgood)]; [done|]. rewrite Hv.
    apply settle_succeeding; [done| |done].
    right. split; [done|]. by exists json, (String a c).
  - simpl. fold (call_of index). rewrite Hcall.
    destruct (decide (caching inp = true)) as [Hc|Hc%not_true_is_false];
      rewrite Hc.
    + destruct (keys_serialize Hc index Hlt) as [json Hjson].
      pose proof Hjson as Hjson'. unfold key_text_of in Hjson'. rewrite Hjson'.
      destruct Hs as (Habort & Hrun & Hset & Hcache).
      unfold succeeding. split_and!; simpl; [done| |done|done].
      apply Forall_app. split; [done|]. by repeat constructor.
    + apply settle_succeeding; [done| |done]. left. by exists itemOutput.
  - destruct Hst as (Hc & Hjson & Hstored). simpl.
    assert (stored = itemOutput) as -> by congruence.
    destruct (outputs_encode Hc index itemOutput Hlt Hcall) as (c & Hcomp & Hwell).
    rewrite Hcomp.
    apply settle_succeeding; [done|left; by exists itemOutput|].
    destruct Hs as (Habort & Hrun & Hset & Hcache).
    unfold succeeding. split_and!; simpl; [done|done|done|].
    intros _ k c'. rewrite lookup_insert. case_decide as Hk.
    + intros [= <-]. split; [done|]. right.
      exists index, json, itemOutput. by split_and!.
    + by apply Hcache.
Qed.

Lemma step_succeeding ev s s' :
  ev ≠ AbortSignal →
  well_formed inp s → succeeding s →
  step rt rivet inp ev s = Some s' → succeeding s'.
Proof.
  intros Hev Hwf Hs. destruct ev as [|index|]; [| |done].
  - intros (index & rest & Hw & _ & ->)%step_Start.
    apply task_start_succeeding; [|done].
    apply (index_in_range s); [done|]. unfold indices. rewrite Hw. set_solver.
  - intros (st & Hst%stage_of_elem & ->)%step_Resume.
    destruct Hs as (Habort & Hrun & Hset & Hcache).
    apply task_resume_succeeding.
    + apply (index_in_range s); [done|]. unfold indices.
      apply (list_elem_of_fmap_2 fst) in Hst. set_solver.
    + rewrite Forall_forall in Hrun. apply (Hrun _ Hst).
    + unfold succeeding. split_and!; simpl; [done| |done|done].
      by apply Forall_without.
Qed.

Lemma exec_succeeding schedule s :
  AbortSignal ∉ schedule →
  exec rt rivet inp schedule (initial_state inp entry0) = Some s →
  well_formed inp s ∧ succeeding s.
Proof.
  intros Hno.
  apply (exec_invariant_without_abort rt rivet inp
           (fun s => well_formed inp s ∧ succeeding s)); [done| |].
  - intros ev s1 s2 Hev [Hwf Hs] Hstep. split.
    + by eapply step_well_formed.
    + by eapply step_succeeding.
  - split; [apply initial_state_well_formed|apply initial_state_succeeding].
Qed.


End Success.



(** * Further properties of the node *)

(** ** The cache key *)

Lemma string_app_cons (a : ascii) (x y : string) :
  String a x +:+ y = String a (x +:+ y).
Proof. reflexivity. Qed.

Lemma string_app_empty_r (x : string) : x +:+ "" = x.
Proof.
  induction x as [|a x IH]; [done|]. by rewrite string_app_cons, IH.
Qed.

Lemma join_empty_cons (x : string) (l : list string) :
  Js.join "" (x :: l) = x +:+ Js.join "" l.
Proof.
  destruct l as [|y l].
  - change (Js.join "" [x]) with x. change (Js.join "" []) with "".
    by rewrite string_app_empty_r.
  - change (Js.join "" (x :: y :: l)) with (x +:+ "" +:+ Js.join "" (y :: l)).
    first [reflexivity | by rewrite string_app_empty_r].
Qed.

Lemma unhex_hex_byte (b : Byte.byte) (rest : string) :
  unhex (hex_byte b +:+ rest) = (bs ← unhex rest; Some (b :: bs)).
Proof. destruct b; reflexivity. Qed.

Lemma hex_byte_length (b : Byte.byte) : String.length (hex_byte b) = 2.
Proof. destruct b; reflexivity. Qed.

Lemma string_length_app (a b : string) :
  String.length (a +:+ b) = String.length a + String.length b.
Proof.
  induction a as [|c a IH]; [done|]. rewrite string_app_cons. simpl.
  by rewrite IH.
Qed.

(** X1.  [sha256] returns the digest in lower-case hexadecimal, two
    characters per byte: the text reads back into exactly the digest's
    bytes, so two inputs get the same key only if their digests are
    equal. *)
Theorem sha256_is_hex_of_digest (rt : Runtime) (input : string) :
  String.length (sha256 rt input) = 2 * length (digest_SHA256 rt input)
  ∧ unhex (sha256 rt input) = Some (digest_SHA256 rt input)
  ∧ ∀ other, sha256 rt input = sha256 rt other →
             digest_SHA256 rt input = digest_SHA256 rt other.
Proof.
  assert (∀ l, String.length (Js.join "" (map hex_byte l)) = 2 * length l
               ∧ unhex (Js.join "" (map hex_byte l)) = Some l) as Hhex.
  { induction l as [|b l [IHlen IHun]]; [done|].
    change (map hex_byte (b :: l)) with (hex_byte b :: map hex_byte l).
    rewrite join_empty_cons, string_length_app, hex_byte_length, IHlen.
    rewrite unhex_hex_byte, IHun. split; [simpl; lia|done]. }
  unfold sha256. split_and!; [apply Hhex|apply Hhex|].
  intros other Heq.
  destruct (Hhex (digest_SHA256 rt input)) as [_ H1].
  destruct (Hhex (digest_SHA256 rt other)) as [_ H2].
  rewrite Heq in H1. congruence.
Qed.

(** ** What is validated and what is sent *)

Lemma wrapped_item_is_ObjectDataValue (item : JsValue) :
  Js.typeof item = "object" →
  isObjectDataValue (JObj [("type", JStr "object"); ("value", item)]) = true.
Proof.
  intros Hobj. unfold isObjectDataValue. simpl. by rewrite Hobj.
Qed.



(** ** What validation reports *)

Lemma set_add_nonempty (x : JsValue) (s : list JsValue) : Js.set_add x s ≠ [].
Proof.
  unfold Js.set_add. destruct (Js.includes s x) eqn:Hin.
  - destruct s; [done|done].
  - by destruct s.
Qed.

Lemma foldl_set_add_nonempty (s l : list JsValue) :
  s ≠ [] → foldl (fun s key => Js.set_add key s) s l ≠ [].
Proof.
  revert s. induction l as [|x l IH]; intros s Hs; simpl; [done|].
  apply IH, set_add_nonempty.
Qed.

Lemma foldl_set_add_elem (s l : list JsValue) (x : JsValue) :
  x ∈ foldl (fun s key => Js.set_add key s) s l → x ∈ s ∨ x ∈ l.
Proof.
  revert s. induction l as [|y l IH]; intros s; simpl; [by left|].
  intros [Hx|Hx]%IH; [|right; by right].
  unfold Js.set_add in Hx. destruct (Js.includes s y); [by left|].
  apply elem_of_app in Hx as [Hx|Hx]; [by left|].
  apply list_elem_of_singleton in Hx as ->. right. left.
Qed.

Lemma invalid_value_scan (rivet : Rivet) (values : list JsValue) (st : Problems) :
  Js.some_st
    (fun s (st : Problems) =>
       isDataType ← isAnyDataValue rivet s;
       if isDataType : bool then Ok (false, st)
       else Ok (true,
                {| missingKeys := missingKeys st;
                   notDataValue := Js.set_add s (notDataValue st) |}))
    values no_problems = Ok (true, st) →
  ∃ v, v ∈ values ∧ isAnyDataValue rivet v = Ok false
       ∧ st = {| missingKeys := []; notDataValue := [v] |}.
Proof.
  induction values as [|v values IH]; simpl; [done|].
  destruct (isAnyDataValue rivet v) as [[]|] eqn:Hv; simpl; [| |done].
  - intros (w & Hw & Hrest)%IH. exists w. split; [by right|done].
  - intros [= <-]. exists v. split; [left|done].
Qed.

Lemma validateInputItem_fail (rivet : Rivet) (graph : NodeGraph)
    (item : JsValue) (sets : Problems) :
  validateInputItem rivet item graph no_problems = Ok (true, sets) →
  (missingKeys sets ≠ [] ∧ notDataValue sets = []
   ∧ ∀ key, key ∈ missingKeys sets → key ∈ expectedKeys graph)
  ∨ (missingKeys sets = []
     ∧ ∃ v, notDataValue sets = [v] ∧ isAnyDataValue rivet v = Ok false).
Proof.
  unfold validateInputItem.
  destruct (Js.Object_keys item) as [keys0|]; simpl; [|done].
  destruct (if isObjectDataValue item then _ else _) as [itemKeys|]; simpl; [|done].
  destruct (Js.Object_values item) as [values0|]; simpl; [|done].
  destruct (if isObjectDataValue item then _ else _) as [itemValues|]; simpl; [|done].
  destruct (existsb _ _) eqn:Hmissing.
  - intros [= <-]. left. simpl. split_and!; [|done|].
    + apply existsb_exists in Hmissing as (key & Hin%list_elem_of_In & Habsent).
      assert (key ∈ filter
                (fun key => negb (Js.includes (map JStr itemKeys) key) = true)
                (expectedKeys graph)) as Hkey
        by by apply list_elem_of_filter.
      destruct (filter _ (expectedKeys graph)) as [|y l]; [by apply elem_of_nil in Hkey|].
      simpl. apply foldl_set_add_nonempty, set_add_nonempty.
    + intros key [Hkey|Hkey]%foldl_set_add_elem; [by apply elem_of_nil in Hkey|].
      by apply list_elem_of_filter in Hkey as [_ Hkey].
  - intros (v & _ & Hv & ->)%invalid_value_scan. right. split; [done|].
    by exists v.
Qed.

Lemma validate_batch_pass (rivet : Rivet) (graph : NodeGraph)
    (items : list JsValue) (st sets : Problems) :
  Js.some_st (fun s st => validateInputItem rivet s graph st) items st
    = Ok (false, sets) → sets = st.
Proof.
  revert st. induction items as [|x xs IH]; intros st; simpl.
  - by intros [= <-].
  - destruct (validateInputItem rivet x graph st) as [[[] st']|] eqn:Hx; [done| |done].
    apply validateInputItem_pass in Hx as ->. apply IH.
Qed.

(** X3.  What the validation scan of a batch can report.  A batch that
    passes leaves both sets empty.  A batch that fails reports exactly one
    kind of problem: either missing keys, all of them ids of the graph's
    input nodes, and no invalid value; or no missing key and a single
    invalid value, one that [isAnyDataValue] rejects. *)
Theorem validation_reports_one_kind_of_problem (rivet : Rivet)
    (inp : ProcessInput) (graph : NodeGraph) (invalid : bool) (sets : Problems) :
  validate_batch rivet inp graph = Ok (invalid, sets) →
  if invalid
  then (missingKeys sets ≠ [] ∧ notDataValue sets = []
        ∧ ∀ key, key ∈ missingKeys sets → key ∈ expectedKeys graph)
       ∨ (missingKeys sets = []
          ∧ ∃ v, notDataValue sets = [v] ∧ isAnyDataValue rivet v = Ok false)
  else sets = no_problems.
Proof.
  unfold validate_batch. destruct invalid.
  - intros (passed & item & rest & _ & Hitem)%validation_reports_first_failing_item.
    by eapply validateInputItem_fail.
  - apply validate_batch_pass.
Qed.

Lemma validation_reports_one_kind_of_problem_witness :
  ∃ v, notDataValue {| missingKeys := []; notDataValue := [JNum 7] |} = [v]
       ∧ isAnyDataValue (Host.rivet_with Host.echo) v = Ok false.
Proof.
  destruct (validation_reports_one_kind_of_problem (Host.rivet_with Host.echo)
              (Examples.input Examples.graph_xy
                 [JObj [("x", Examples.tagged 3); ("y", JNum 7)]] 1 false)
              Examples.graph_xy true
              {| missingKeys := []; notDataValue := [JNum 7] |} eq_refl)
    as [(Hne & _)|(_ & Hv)].
  - by destruct Hne.
  - exact Hv.
Defined.

(** ** The cache entry and the sweep *)

(** X4.  [invalideCacheIfChanges] always leaves the entry on the current
    snapshot with its expiry untouched, never adds a key, and is
    idempotent: reconciling twice against the same snapshot is reconciling
    once. *)
Theorem invalideCacheIfChanges_idempotent (entry : CacheStorage)
    (snapshot : string) :
  graphSnapshot (invalideCacheIfChanges entry snapshot) = Some snapshot
  ∧ expiryTimestamp (invalideCacheIfChanges entry snapshot)
    = expiryTimestamp entry
  ∧ cache (invalideCacheIfChanges entry snapshot) ⊆ cache entry
  ∧ invalideCacheIfChanges (invalideCacheIfChanges entry snapshot) snapshot
    = invalideCacheIfChanges entry snapshot.
Proof.
  destruct (decide (graphSnapshot entry = Some snapshot)) as [Heq|Hne].
  - rewrite !invalideCacheIfChanges_same by done. by split_and!.
  - rewrite !invalideCacheIfChanges_changed by done. simpl.
    split_and!; [done|done|apply map_empty_subseteq|].
    by rewrite invalideCacheIfChanges_same.
Qed.

Lemma cleanExpiredCache_lookup (now : Z) (storage : PluginCache)
    (id : string) (entry : CacheStorage) :
  cleanExpiredCache now storage !! id = Some entry
  ↔ storage !! id = Some entry ∧ (now ≤ expiryTimestamp entry)%Z.
Proof.
  unfold cleanExpiredCache. rewrite map_lookup_filter_Some. simpl.
  split; intros [? ?]; split; [done|lia|done|lia].
Qed.

(** X5.  [cleanExpiredCache] keeps exactly the entries that have not
    expired, an entry expiring at the very instant of the sweep included,
    and leaves them as they are; a later sweep absorbs an earlier one. *)
Theorem cleanExpiredCache_keeps_unexpired (now later : Z)
    (storage : PluginCache) :
  (∀ id entry,
     cleanExpiredCache now storage !! id = Some entry
     ↔ storage !! id = Some entry ∧ (now ≤ expiryTimestamp entry)%Z)
  ∧ ((now ≤ later)%Z →
     cleanExpiredCache later (cleanExpiredCache now storage)
     = cleanExpiredCache later storage).
Proof.
  split; [intros id entry; apply cleanExpiredCache_lookup|].
  intros Hle. apply map_eq. intros id. apply option_eq. intros entry.
  rewrite !cleanExpiredCache_lookup. intuition lia.
Qed.

Lemma cleanExpiredCache_keeps_unexpired_witness :
  let entry := {| cache := ∅; expiryTimestamp := 2000; graphSnapshot := None |} in
  cleanExpiredCache 2000 {[ "node" := entry ]} !! "node" = Some entry
  ∧ cleanExpiredCache 3000 (cleanExpiredCache 2000 {[ "node" := entry ]})
    = cleanExpiredCache 3000 {[ "node" := entry ]}.
Proof.
  intros entry.
  destruct (cleanExpiredCache_keeps_unexpired 2000 3000 {[ "node" := entry ]})
    as [Hkeep Hlater].
  split.
  - apply Hkeep. split; [apply lookup_singleton_eq|simpl; lia].
  - apply Hlater. lia.
Defined.

(** ** What the queue does to the cache entry *)

Section Frames.

Variable rt : Runtime.
Variable rivet : Rivet.
Variable inp : ProcessInput.

Lemma step_cache_frame ev s s' :
  step rt rivet inp ev s = Some s' →
  expiryTimestamp (cacheStorage s') = expiryTimestamp (cacheStorage s)
  ∧ graphSnapshot (cacheStorage s') = graphSnapshot (cacheStorage s)
  ∧ dom (cache (cacheStorage s)) ⊆ dom (cache (cacheStorage s')).
Proof.
  destruct ev as [|index|].
  - intros (index & rest & _ & _ & ->)%step_Start. task_crush; done.
  - intros (st & _ & ->)%step_Resume.
    task_crush; split_and!; try done; rewrite dom_insert_L; set_solver.
  - by intros [= <-].
Qed.

(** With caching off a started task only ever awaits the subgraph, and
    the entry is not written to. *)
Lemma step_caching_off ev s s' :
  caching inp = false →
  Forall (fun p : nat * Stage => p.2 = Processing) (running s) →
  step rt rivet inp ev s = Some s' →
  Forall (fun p : nat * Stage => p.2 = Processing) (running s')
  ∧ cacheStorage s' = cacheStorage s.
Proof.
  intros Hoff Hrun. destruct ev as [|index|].
  - intros (index & rest & _ & _ & ->)%step_Start.
    unfold task_start, catch_block, call_graph. rewrite Hoff. simpl.
    destruct (abortIteration s); simpl; [done|].
    split; [|done]. apply Forall_app. split; [done|]. by repeat constructor.
  - intros (st & Hst%stage_of_elem & ->)%step_Resume.
    rewrite Forall_forall in Hrun. pose proof (Hrun _ Hst) as Hp. simpl in Hp.
    subst st. unfold task_resume, catch_block. rewrite Hoff.
    assert (Forall (fun p : nat * Stage => p.2 = Processing)
              (without index (running s))) as Hw.
    { apply Forall_without, Forall_forall, Hrun. }
    repeat case_match; simpl; done.
  - by intros [= <-].
Qed.

Lemma exec_cache_frame entry schedule s :
  exec rt rivet inp schedule (initial_state inp entry) = Some s →
  expiryTimestamp (cacheStorage s) = expiryTimestamp entry
  ∧ graphSnapshot (cacheStorage s) = graphSnapshot entry
  ∧ dom (cache entry) ⊆ dom (cache (cacheStorage s))
  ∧ (caching inp = false → cacheStorage s = entry).
Proof.
  intros Hexec. split_and!.
  - apply (exec_invariant rt rivet inp
              (fun s => expiryTimestamp (cacheStorage s) = expiryTimestamp entry)
             schedule (initial_state inp entry) s);
      [|done|exact Hexec].
    intros ev s1 s2 H1 (-> & _)%step_cache_frame. done.
  - apply (exec_invariant rt rivet inp
              (fun s => graphSnapshot (cacheStorage s) = graphSnapshot entry)
             schedule (initial_state inp entry) s);
      [|done|exact Hexec].
    intros ev s1 s2 H1 (_ & -> & _)%step_cache_frame. done.
  - apply (exec_invariant rt rivet inp
              (fun s => dom (cache entry) ⊆ dom (cache (cacheStorage s)))
             schedule (initial_state inp entry) s);
      [|done|exact Hexec].
    intros ev s1 s2 H1 (_ & _ & H2)%step_cache_frame. set_solver.
  - intros Hoff.
    apply (exec_invariant rt rivet inp
              (fun s => Forall (fun p : nat * Stage => p.2 = Processing) (running s)
                        ∧ cacheStorage s = entry)
             schedule (initial_state inp entry) s);
      [| |exact Hexec].
    + intros ev s1 s2 [Hrun <-] Hstep.
      by apply (step_caching_off ev s1 s2 Hoff Hrun).
    + split; [constructor|done].
Qed.

(** X6.  Along every schedule the tasks never touch the expiry or the
    snapshot of the shared entry and never remove a key from its cache;
    with caching off they do not write to the entry at all. *)
Theorem tasks_only_add_cache_keys (entry : CacheStorage)
    (schedule : list Event) (s : QState) :
  exec rt rivet inp schedule (initial_state inp entry) = Some s →
  expiryTimestamp (cacheStorage s) = expiryTimestamp entry
  ∧ graphSnapshot (cacheStorage s) = graphSnapshot entry
  ∧ dom (cache entry) ⊆ dom (cache (cacheStorage s))
  ∧ (caching inp = false → cacheStorage s = entry).
Proof. apply exec_cache_frame. Qed.

(** The storage on every way out of [process] with caching off. *)
Lemma process_storage_caching_off schedule storage out storage' :
  caching inp = false →
  process rt rivet inp schedule storage = Some (out, storage') →
  storage' = storage
  ∨ ∃ snapshot,
      storage'
      = write_through inp storage
          (invalideCacheIfChanges (getOrCreate inp storage snapshot) snapshot).
Proof.
  intros Hoff. unfold process.
  destruct (process_prelude rt rivet inp storage) as [out0 st0|s0] eqn:Hpre.
  - intros [= <- <-]. unfold process_prelude in Hpre.
    destruct (some_item_not_object inp); [left; congruence|].
    destruct (project_graphs inp !! graphId (graphRef inp)) as [graph|];
      [|left; congruence].
    destruct (snapshot_of rt graph) as [snapshot|]; [|left; congruence].
    right. exists snapshot.
    destruct (validate_batch rivet inp graph) as [[[] sets]|]; [| |congruence].
    + destruct (validation_error_message rt rivet sets); congruence.
    + done.
  - apply process_prelude_dispatch in Hpre as (graph & snapshot & _ & _ & _ & _ & ->).
    destruct (new_PQueue rt inp) as [[]|e].
    2:{ intros [= <- <-]. right. by exists snapshot. }
    destruct (exec rt rivet inp schedule _) as [s|] eqn:Hexec; simpl; [|done].
    apply exec_cache_frame in Hexec as (_ & _ & _ & Hentry).
    unfold process_finish, commit. rewrite (Hentry Hoff), Hoff.
    destruct (idle s); [|done].
    destruct (first_rejection (settled s)).
    + intros [= <- <-]. right. by exists snapshot.
    + destruct (iteratorOutputs inp s); simpl; [|done].
      intros [= <- <-]. right. exists snapshot. unfold write_through.
      by destruct (nodeId (data inp)).
Qed.

(** X7.  With caching off, [process] never adds or removes an entry of
    the plugin cache and never stores a result: on every way out the
    storage differs from the one it found at most in the node's own,
    already stored entry, which by then is the reconciled one (its cache
    cleared if its snapshot was stale). *)
Theorem process_without_caching_only_reconciles (schedule : list Event)
    (storage storage' : PluginCache) (out : ProcessOutcome) :
  caching inp = false →
  process rt rivet inp schedule storage = Some (out, storage') →
  (storage_get inp storage = None → storage' = storage)
  ∧ (∀ id, nodeId (data inp) ≠ Some id → storage' !! id = storage !! id)
  ∧ (∀ id entry,
       nodeId (data inp) = Some id → storage !! id = Some entry →
       storage' = storage
       ∨ ∃ snapshot,
           storage' = <[id := invalideCacheIfChanges entry snapshot]> storage).
Proof.
  intros Hoff Hrun.
  destruct (process_storage_caching_off _ _ _ _ Hoff Hrun)
    as [->|(snapshot & ->)]; [by split_and!; [| |left]|].
  unfold write_through, getOrCreate, storage_get.
  destruct (nodeId (data inp)) as [id0|] eqn:Hid; simpl; [|by split_and!].
  destruct (storage !! id0) as [entry0|] eqn:Hentry; simpl.
  - split_and!.
    + done.
    + intros id Hne. rewrite lookup_insert_ne; [done|congruence].
    + intros id entry [= <-] Hid'. right. exists snapshot. congruence.
  - split_and!; [done|done|]. intros id entry _ _. by left.
Qed.

End Frames.

Lemma tasks_only_add_cache_keys_witness :
  let inp := Examples.input Examples.graph_plain Examples.three_empty 2 true in
  let s := state_after Host.runtime (Host.rivet_with Host.echo) inp
             [Start; Resume 0; Resume 0; Resume 0]
             (initial_state inp empty_entry) in
  expiryTimestamp (cacheStorage s) = 0%Z
  ∧ graphSnapshot (cacheStorage s) = None.
Proof.
  intros inp s.
  destruct (tasks_only_add_cache_keys Host.runtime (Host.rivet_with Host.echo)
              inp empty_entry [Start; Resume 0; Resume 0; Resume 0] s)
    as (Hexp & Hsnap & _).
  - vm_compute. reflexivity.
  - split; [exact Hexp|exact Hsnap].
Defined.

Lemma process_without_caching_only_reconciles_witness :
  let inp := Examples.input Examples.graph_plain Examples.three_empty 1 false in
  let rivet := Host.rivet_with Host.echo in
  let stale : PluginCache :=
    {[ "node" := {| cache := {[ "k" := "v" ]}; expiryTimestamp := 0;
                    graphSnapshot := Some "old" |} ]} in
  let schedule := [Start; Resume 0; Start; Resume 1; Start; Resume 2] in
  let storage' := (outcome_after Host.runtime rivet inp schedule stale).2 in
  storage' !! "other" = stale !! "other".
Proof.
  intros inp rivet stale schedule storage'.
  assert (process Host.runtime rivet inp schedule stale
          = Some ((outcome_after Host.runtime rivet inp schedule stale).1,
                  storage')) as Hrun.
  { vm_compute. reflexivity. }
  destruct (process_without_caching_only_reconciles Host.runtime rivet inp
              schedule stale storage' _ eq_refl Hrun) as (_ & Hother & _).
  by apply Hother.
Defined.

(** ** The committed entry and the sweep *)

Lemma invalideCacheIfChanges_expiry (entry : CacheStorage) (snapshot : string) :
  expiryTimestamp (invalideCacheIfChanges entry snapshot) = expiryTimestamp entry.
Proof. unfold invalideCacheIfChanges. by case_bool_decide. Qed.

(** X8.  With caching on, a batch that runs through the queue and returns
    commits the entry and sweeps right away with the clock of the end of
    the run.  The expiry is the one the entry had when the run began (for
    a new entry, 3600 after the clock of its creation): it is never
    refreshed, so the node's entry is in the storage afterwards exactly
    when that expiry has not passed, and it then still has its snapshot and
    at least the keys it had.  Every other node's entry stays exactly when
    it has not expired. *)
Theorem committed_entry_expires_as_created (rt : Runtime) (rivet : Rivet)
    (inp : ProcessInput) (schedule : list Event) (storage storage' : PluginCache)
    (s0 : QState) (o : BatchOutputs) (id : string) :
  process_prelude rt rivet inp storage = Dispatch s0 →
  caching inp = true →
  nodeId (data inp) = Some id →
  process rt rivet inp schedule storage = Some (Returned o, storage') →
  (storage_get inp storage = None →
   expiryTimestamp (cacheStorage s0) = (now_created inp + 3600)%Z)
  ∧ match storage' !! id with
    | Some e =>
        (now_cleaned inp ≤ expiryTimestamp e)%Z
        ∧ expiryTimestamp e = expiryTimestamp (cacheStorage s0)
        ∧ graphSnapshot e = graphSnapshot (cacheStorage s0)
        ∧ dom (cache (cacheStorage s0)) ⊆ dom (cache e)
    | None => (expiryTimestamp (cacheStorage s0) < now_cleaned inp)%Z
    end
  ∧ ∀ other e, other ≠ id →
      storage' !! other = Some e
      ↔ storage !! other = Some e ∧ (now_cleaned inp ≤ expiryTimestamp e)%Z.
Proof.
  intros Hpre Hon Hid. unfold process. rewrite Hpre.
  apply process_prelude_dispatch in Hpre as (graph & snapshot & _ & _ & _ & _ & ->).
  destruct (new_PQueue rt inp) as [[]|e]; [|done].
  destruct (exec rt rivet inp schedule _) as [s|] eqn:Hexec; simpl; [|done].
  apply exec_cache_frame in Hexec as (Hexp & Hsnap & Hdom & _).
  unfold process_finish, commit. rewrite Hid, Hon.
  destruct (idle s); [|done].
  destruct (first_rejection (settled s)); [done|].
  destruct (iteratorOutputs inp s); simpl; [|done]. intros [= _ <-].
  split_and!.
  - intros Hnone. rewrite invalideCacheIfChanges_expiry.
    unfold getOrCreate. rewrite Hnone. simpl. lia.
  - destruct (cleanExpiredCache _ _ !! id) as [e|] eqn:He.
    + apply cleanExpiredCache_lookup in He as [He Hle].
      rewrite lookup_insert_eq in He. injection He as <-. by rewrite <- Hexp.
    + destruct (decide (now_cleaned inp ≤ expiryTimestamp (cacheStorage s))%Z)
        as [Hle|Hlt]; [|lia].
      assert (cleanExpiredCache (now_cleaned inp)
                (<[id := cacheStorage s]> storage) !! id
              = Some (cacheStorage s)) as Hkept.
      { apply cleanExpiredCache_lookup. by rewrite lookup_insert_eq. }
      congruence.
  - intros other e Hne. rewrite cleanExpiredCache_lookup.
    by rewrite lookup_insert_ne.
Qed.

Lemma committed_entry_expires_as_created_witness :
  let inp := Examples.input Examples.graph_plain [JObj []] 1 true in
  let rivet := Host.rivet_with Host.echo in
  let schedule := [Start; Resume 0; Resume 0; Resume 0] in
  let storage' := (outcome_after Host.runtime rivet inp schedule ∅).2 in
  ∃ e, storage' !! "node" = Some e ∧ expiryTimestamp e = 4600%Z.
Proof.
  intros inp rivet schedule storage'.
  pose (snapshot := match snapshot_of Host.runtime Examples.graph_plain with
                    | Ok t => t | Throw _ => "" end).
  pose (o := BatchResult
               [JObj [("outputs",
                       JObj [("type", JStr "object"); ("value", JObj [])])]]).
  assert (process Host.runtime rivet inp schedule ∅
          = Some (Returned o, storage')) as Hrun.
  { vm_compute. reflexivity. }
  destruct (committed_entry_expires_as_created Host.runtime rivet inp
              schedule ∅ storage'
              (initial_state inp (new_cacheStorage inp snapshot)) o "node")
    as (_ & Hnode & _); [by vm_compute|done|done|exact Hrun|].
  destruct (storage' !! "node") as [e|]; [|by vm_compute in Hnode].
  exists e. split; [done|]. by destruct Hnode as (_ & -> & _).
Defined.

(** ** Order and number of the queue's steps *)

Section QueueOrder.

Variable rt : Runtime.
Variable rivet : Rivet.
Variable inp : ProcessInput.

#[local] Abbreviation well_formed := (well_formed inp).

Lemma elem_of_without index (r : list (nat * Stage)) (p : nat * Stage) :
  p ∈ without index r ↔ p.1 ≠ index ∧ p ∈ r.
Proof. unfold without. by rewrite list_elem_of_filter. Qed.

Lemma task_start_detail index s :
  let s' := task_start rt inp index s in
  (invoked s' = invoked s
   ∧ (running s' = running s
      ∨ ∃ json, running s' = running s ++ [(index, HashLookup json)]))
  ∨ (invoked s' = invoked s ++ [index]
     ∧ running s' = running s ++ [(index, Processing)]).
Proof. task_crush; eauto 10. Qed.

Lemma task_resume_detail index st s :
  let s' := task_resume rt rivet inp index st s in
  (invoked s' = invoked s
   ∧ (running s' = running s
      ∨ ∃ o json, running s' = running s ++ [(index, HashStore o json)]))
  ∨ ((∃ json, st = HashLookup json)
     ∧ invoked s' = invoked s ++ [index]
     ∧ running s' = running s ++ [(index, Processing)]).
Proof. task_crush; eauto 10. Qed.

#[local] Abbreviation invoked_once := (invoked_once inp).

Lemma step_invoked_once ev s s' :
  well_formed s → invoked_once s →
  step rt rivet inp ev s = Some s' → invoked_once s'.
Proof.
  intros Hwf (Hnd & Hlt & Hpast) Hstep.
  pose proof (well_formed_NoDup inp s Hwf) as Hidx. unfold indices in Hidx.
  apply NoDup_app in Hidx as (_ & Hdisj & _).
  destruct ev as [|index|].
  - apply step_Start in Hstep as (index & rest & Hw & _ & ->).
    assert (index ∉ invoked s) as Hfresh.
    { intros Hin. destruct Hwf as [_ Hwf]. apply (Hwf index Hin).
      rewrite Hw. left. }
    assert (index < length (iteratorInputs inp)) as Hidx.
    { apply (index_in_range inp s); [done|]. unfold indices. rewrite Hw.
      set_solver. }
    assert (∀ json, (index, HashLookup json) ∉ running s) as Hnot.
    { intros json Hin%(list_elem_of_fmap_2 fst). simpl in Hin.
      apply (Hdisj index); [rewrite Hw; left|set_solver]. }
    unfold invoked_once.
    destruct (task_start_detail index (set_waiting rest s))
      as [[-> Hrun]|[-> ->]]; simpl in *.
    + split_and!; [done|done|]. intros i json Hi.
      destruct Hrun as [->|(json' & ->)]; [by apply Hpast|].
      intros [Hin|Hin]%elem_of_app; [by apply (Hpast i json)|].
      apply list_elem_of_singleton in Hin. injection Hin as -> _. done.
    + split_and!.
      * apply NoDup_app. split_and!; [done|set_solver|apply NoDup_singleton].
      * intros i [Hi|Hi]%elem_of_app; [by apply Hlt|]. set_solver.
      * intros i json Hi [Hin|Hin]%elem_of_app.
        -- apply elem_of_app in Hi as [Hi|Hi]; [by apply (Hpast i json)|].
           apply list_elem_of_singleton in Hi as ->. by apply (Hnot json).
        -- by apply list_elem_of_singleton in Hin.
  - apply step_Resume in Hstep as (st & Hst%stage_of_elem & ->).
    assert (index < length (iteratorInputs inp)) as Hidx.
    { apply (index_in_range inp s); [done|]. unfold indices.
      apply (list_elem_of_fmap_2 fst) in Hst. set_solver. }
    unfold invoked_once.
    destruct (task_resume_detail index st
                (set_running (without index (running s)) s))
      as [[-> Hrun]|[[json0 ->] [-> ->]]]; simpl in *.
    + split_and!; [done|done|]. intros i json Hi.
      destruct Hrun as [->|(o & json' & ->)].
      * intros [_ Hin]%elem_of_without. by apply (Hpast i json).
      * intros [[_ Hin]%elem_of_without|Hin]%elem_of_app;
          [by apply (Hpast i json)|].
        by apply list_elem_of_singleton in Hin.
    + assert (index ∉ invoked s) as Hfresh.
      { intros Hin. by apply (Hpast index json0). }
      split_and!.
      * apply NoDup_app. split_and!; [done|set_solver|apply NoDup_singleton].
      * intros i [Hi|Hi]%elem_of_app; [by apply Hlt|]. set_solver.
      * intros i json Hi [[Hne Hin]%elem_of_without|Hin]%elem_of_app.
        -- apply elem_of_app in Hi as [Hi|Hi]; [by apply (Hpast i json)|].
           apply list_elem_of_singleton in Hi. by subst.
        -- by apply list_elem_of_singleton in Hin.
  - injection Hstep as <-. done.
Qed.

(** X9.  In every state the queue reaches, no item has had its subgraph
    called twice and no item has two outcomes; when the queue is idle every
    item of the batch has exactly one outcome. *)
Theorem each_item_invoked_at_most_once (entry : CacheStorage)
    (schedule : list Event) (s : QState) :
  exec rt rivet inp schedule (initial_state inp entry) = Some s →
  NoDup (invoked s)
  ∧ (∀ i, i ∈ invoked s → i < length (iteratorInputs inp))
  ∧ NoDup (settled s).*1
  ∧ (idle s = true → (settled s).*1 ≡ₚ seq 0 (length (iteratorInputs inp))).
Proof.
  intros Hexec.
  assert (well_formed s ∧ invoked_once s) as [Hwf (Hnd & Hlt & _)].
  { apply (exec_invariant rt rivet inp
             (fun s => well_formed s ∧ invoked_once s)
             schedule (initial_state inp entry) s); [| |exact Hexec].
    - intros ev s1 s2 [Hwf Hon] Hstep. split.
      + by eapply step_well_formed.
      + by eapply step_invoked_once.
    - split; [apply initial_state_well_formed|].
      split_and!; simpl; [apply NoDup_nil_2|set_solver|set_solver]. }
  split_and!; [done|done| |].
  - apply well_formed_NoDup in Hwf. unfold indices in Hwf.
    by apply NoDup_app in Hwf as (_ & _ & (_ & _ & ?)%NoDup_app).
  - intros [Hw Hr]%andb_prop. apply bool_decide_eq_true in Hw, Hr.
    destruct Hwf as [Hperm _]. unfold indices in Hperm.
    by rewrite Hw, Hr in Hperm.
Qed.

Lemma seq_pop (m n : nat) (index : nat) (rest : list nat) :
  seq m (n - m) = index :: rest →
  index = m ∧ m < n ∧ rest = seq (S m) (n - S m).
Proof.
  destruct (n - m) as [|k] eqn:Hk; simpl; [done|].
  intros [= <- <-]. split_and!; [done|lia|]. f_equal. lia.
Qed.

(** With caching off the subgraph is called when a task starts, unless
    the flag is set: the calls are the first items of the batch. *)
Lemma step_start_order ev s s' m :
  m ≤ length (iteratorInputs inp) →
  waiting s = seq m (length (iteratorInputs inp) - m) →
  (caching inp = false →
   Forall (fun p : nat * Stage => p.2 = Processing) (running s)
   ∧ ∃ k, k ≤ m ∧ invoked s = seq 0 k ∧ (abortIteration s = false → k = m)) →
  step rt rivet inp ev s = Some s' →
  ∃ m', m' ≤ length (iteratorInputs inp)
        ∧ waiting s' = seq m' (length (iteratorInputs inp) - m')
        ∧ (caching inp = false →
           Forall (fun p : nat * Stage => p.2 = Processing) (running s')
           ∧ ∃ k, k ≤ m' ∧ invoked s' = seq 0 k
                  ∧ (abortIteration s' = false → k = m')).
Proof.
  intros Hmn Hw Hcalls Hstep. pose proof Hstep as Hstep'.
  destruct ev as [|index|].
  - apply step_Start in Hstep' as (index & rest & Hw' & _ & ->).
    rewrite Hw in Hw'. apply seq_pop in Hw' as (-> & Hlt & ->).
    exists (S m). split_and!; [lia| |].
    + by destruct (task_start_segment rt inp m
                     (set_waiting (seq (S m) (length (iteratorInputs inp) - S m)) s))
        as [-> _].
    + intros Hoff. destruct (Hcalls Hoff) as (Hrun & k & Hle & Hinv & Hflag).
      split; [by destruct (step_caching_off rt rivet inp _ _ _ Hoff Hrun Hstep)|].
      unfold task_start, call_graph, suspend, settle, set_running. rewrite Hoff.
      simpl. destruct (abortIteration s) eqn:Habort; simpl.
      * exists k. split_and!; [lia|done|done].
      * exists (S m). rewrite Hinv, (Hflag eq_refl).
        split_and!; [done| |done]. by rewrite seq_S.
  - apply step_Resume in Hstep' as (st & Hst%stage_of_elem & ->).
    exists m. split_and!; [done| |].
    + by destruct (task_resume_segment rt rivet inp index st
                     (set_running (without index (running s)) s)) as [-> _].
    + intros Hoff. destruct (Hcalls Hoff) as (Hrun & k & Hle & Hinv & Hflag).
      split; [by destruct (step_caching_off rt rivet inp _ _ _ Hoff Hrun Hstep)|].
      rewrite Forall_forall in Hrun. pose proof (Hrun _ Hst) as Hp. simpl in Hp.
      subst st. exists k. unfold task_resume, catch_block. rewrite Hoff.
      repeat case_match; simpl; split_and!; try done.
      all: intros; by apply Hflag.
  - injection Hstep as <-. exists m. split_and!; [done|done|].
    intros Hoff. destruct (Hcalls Hoff) as (Hrun & k & Hle & Hinv & Hflag).
    split; [done|]. exists k. by split_and!.
Qed.

(** X10.  The queue starts tasks in input order: what is still waiting
    is always the tail of the batch from some item on.  With caching off
    the subgraph has then been called for the first items of the batch, in
    order and without gaps, and for all the items that left the queue as
    long as the abort flag is not set. *)
Theorem tasks_start_in_input_order (entry : CacheStorage)
    (schedule : list Event) (s : QState) :
  exec rt rivet inp schedule (initial_state inp entry) = Some s →
  ∃ m, m ≤ length (iteratorInputs inp)
       ∧ waiting s = seq m (length (iteratorInputs inp) - m)
       ∧ (caching inp = false →
          ∃ k, k ≤ m ∧ invoked s = seq 0 k
               ∧ (abortIteration s = false → k = m)).
Proof.
  intros Hexec.
  assert (∃ m, m ≤ length (iteratorInputs inp)
               ∧ waiting s = seq m (length (iteratorInputs inp) - m)
               ∧ (caching inp = false →
                  Forall (fun p : nat * Stage => p.2 = Processing) (running s)
                  ∧ ∃ k, k ≤ m ∧ invoked s = seq 0 k
                         ∧ (abortIteration s = false → k = m)))
    as (m & Hmn & Hw & Hcalls).
  { apply (exec_invariant rt rivet inp
             (fun s => ∃ m, m ≤ length (iteratorInputs inp)
                ∧ waiting s = seq m (length (iteratorInputs inp) - m)
                ∧ (caching inp = false →
                   Forall (fun p : nat * Stage => p.2 = Processing) (running s)
                   ∧ ∃ k, k ≤ m ∧ invoked s = seq 0 k
                          ∧ (abortIteration s = false → k = m)))
             schedule (initial_state inp entry) s); [| |exact Hexec].
    - intros ev s1 s2 (m1 & H1 & H2 & H3) Hstep.
      by apply (step_start_order ev s1 s2 m1).
    - exists 0. simpl. rewrite Nat.sub_0_r. split_and!; [lia|done|].
      intros _. split; [constructor|]. exists 0. by split_and!. }
  exists m. split_and!; [done|done|].
  intros Hoff. by destruct (Hcalls Hoff) as [_ ?].
Qed.

(** *** How long a run can be *)

Lemma stages_work_stage index r st :
  stage_of index r = Some st →
  stages_work (without index r) + weight st ≤ stages_work r.
Proof.
  induction r as [|[i st'] r IH]; simpl; [done|].
  case_bool_decide as Hi.
  - intros [= ->]. subst i. rewrite without_head.
    pose proof (stages_work_without index r). lia.
  - intros H. unfold without. rewrite filter_cons_True by done.
    fold (without index r). specialize (IH H). simpl. lia.
Qed.

Lemma step_work ev s s' :
  is_AbortSignal ev = false →
  step rt rivet inp ev s = Some s' → work_left s' < work_left s.
Proof.
  intros Hev. destruct ev as [|index|]; [| |done].
  - intros (index & rest & Hw & _ & ->)%step_Start.
    destruct (task_start_work rt inp index (set_waiting rest s)) as [Hw' Hwork].
    unfold work_left. rewrite Hw', Hw. simpl in *. lia.
  - intros (st & Hst%stages_work_stage & ->)%step_Resume.
    destruct (task_resume_work rt rivet inp index st
                (set_running (without index (running s)) s)) as [Hw' Hwork].
    unfold work_left. rewrite Hw'. simpl in *. lia.
Qed.

Lemma exec_work schedule s s' :
  exec rt rivet inp schedule s = Some s' →
  task_events schedule + work_left s' ≤ work_left s.
Proof.
  revert s. induction schedule as [|ev schedule IH]; intros s; simpl.
  - intros [= <-]. unfold task_events. simpl. lia.
  - destruct (step rt rivet inp ev s) as [s1|] eqn:Hstep; [|done].
    intros Hexec%IH. unfold task_events in *.
    destruct (is_AbortSignal ev) eqn:Hev.
    + rewrite filter_cons_False by (by rewrite Hev).
      destruct ev; try done. injection Hstep as <-.
      change (work_left (set_abortIteration s)) with (work_left s) in Hexec.
      lia.
    + rewrite filter_cons_True by done. simpl.
      pose proof (step_work ev s s1 Hev Hstep). lia.
Qed.

Lemma task_events_without_abort schedule :
  AbortSignal ∉ schedule → task_events schedule = length schedule.
Proof.
  unfold task_events. induction schedule as [|ev schedule IH]; [done|].
  intros Hno. rewrite filter_cons_True by (destruct ev; [done|done|set_solver]).
  simpl. rewrite IH; [done|set_solver].
Qed.

(** X11.  A run cannot go on for ever and cannot get stuck.  Every task
    takes at most four steps of the queue, so a schedule has at most four
    task events per item of the batch; and whatever has happened so far,
    the run can be completed, without an abort signal, in no more steps
    than the work that is left. *)
Theorem runs_are_bounded_and_complete (entry : CacheStorage)
    (schedule : list Event) (s : QState) :
  exec rt rivet inp schedule (initial_state inp entry) = Some s →
  task_events schedule + work_left s ≤ 4 * length (iteratorInputs inp)
  ∧ ∃ rest s',
      (AbortSignal ∉ rest)
      ∧ exec rt rivet inp (schedule ++ rest) (initial_state inp entry) = Some s'
      ∧ idle s' = true
      ∧ length rest ≤ work_left s.
Proof.
  intros Hexec. split.
  - apply exec_work in Hexec. unfold work_left in Hexec at 2. simpl in Hexec.
    rewrite length_seq in Hexec. lia.
  - destruct (queue_drains rt rivet inp s) as (rest & s' & Hno & Hrest & Hidle).
    exists rest, s'. split_and!; [done| |done|].
    + by rewrite exec_app, Hexec.
    + apply exec_work in Hrest. rewrite task_events_without_abort in Hrest by done.
      lia.
Qed.

End QueueOrder.

(** ** One task at a time *)

Section Sequential.

Variable rt : Runtime.
Variable rivet : Rivet.
Variable inp : ProcessInput.

(** The limit is at most 1: with the clamp of line 304 and the queue's
    constructor, exactly 1. *)
Hypothesis one_at_a_time :
  Js.num_ge (Finite 1) (resolved_chunkSize inp) = true.

Lemma task_start_sets_flag index s :
  abortIteration s = false →
  abortIteration (task_start rt inp index s) = false
  ∨ (running (task_start rt inp index s) = running s
     ∧ ∃ v, settled (task_start rt inp index s)
              = settled s ++ [(index, Fulfilled v)]
            ∧ is_excluded v = Ok true).
Proof.
  intros Habort. task_crush; try congruence; try (by left).
  right. split; [done|]. eexists. split; [done|]. apply failed_output_excluded.
Qed.

Lemma task_resume_sets_flag index st s :
  abortIteration s = false →
  abortIteration (task_resume rt rivet inp index st s) = false
  ∨ (running (task_resume rt rivet inp index st s) = running s
     ∧ ∃ v, settled (task_resume rt rivet inp index st s)
              = settled s ++ [(index, Fulfilled v)]
            ∧ is_excluded v = Ok true).
Proof.
  intros Habort. task_crush; try congruence; try (by left).
  all: right; split; [done|]; eexists; split; [done|];
    apply failed_output_excluded.
Qed.

Lemma single_running index st (r : list (nat * Stage)) :
  length r ≤ 1 → stage_of index r = Some st →
  r = [(index, st)] ∧ without index r = [].
Proof.
  destruct r as [|[i st'] [|p r]]; simpl; [done| |lia].
  intros _. case_bool_decide as Hi; [|done]. intros [= ->]. subst i.
  split; [done|]. by rewrite without_head.
Qed.

Lemma step_in_order ev s s' :
  (settled s).*1 ++ (running s).*1 ++ waiting s
    = seq 0 (length (iteratorInputs inp)) →
  length (running s) ≤ 1 →
  step rt rivet inp ev s = Some s' →
  (settled s').*1 ++ (running s').*1 ++ waiting s'
    = seq 0 (length (iteratorInputs inp))
  ∧ length (running s') ≤ 1.
Proof.
  intros Hord Hlen. destruct ev as [|index|].
  - intros (index & rest & Hw & Hlt & ->)%step_Start.
    pose proof (only_one_fits _ _ one_at_a_time Hlt) as Hnone.
    destruct (running s) as [|p r] eqn:Hr; [|done].
    rewrite Hw in Hord. simpl in Hord.
    destruct (task_start_segment rt inp index (set_waiting rest s))
      as (-> & [(st & -> & ->)|(r & -> & ->)]); simpl; rewrite Hr; simpl.
    + split; [done|lia].
    + rewrite fmap_app. simpl. rewrite <- app_assoc. split; [done|lia].
  - intros (st & Hst & ->)%step_Resume.
    destruct (single_running index st (running s) Hlen Hst) as [Hr Hwo].
    rewrite Hr in Hord. simpl in Hord.
    destruct (task_resume_segment rt rivet inp index st
                (set_running (without index (running s)) s))
      as (-> & [(st' & -> & ->)|(r & -> & ->)]); simpl; rewrite Hwo; simpl.
    + split; [done|lia].
    + rewrite fmap_app. simpl. rewrite <- app_assoc. split; [done|lia].
  - by intros [= <-].
Qed.

Lemma step_skips_after_failure ev s s' :
  ev ≠ AbortSignal →
  length (running s) ≤ 1 →
  (abortIteration s = true →
   running s = []
   ∧ ∃ before k v after,
       settled s = before ++ (k, Fulfilled v) :: after
       ∧ is_excluded v = Ok true ∧ Forall skipped after) →
  step rt rivet inp ev s = Some s' →
  abortIteration s' = true →
  running s' = []
  ∧ ∃ before k v after,
      settled s' = before ++ (k, Fulfilled v) :: after
      ∧ is_excluded v = Ok true ∧ Forall skipped after.
Proof.
  intros Hev Hlen Hflag. destruct ev as [|index|]; [| |done].
  - intros (index & rest & Hw & Hlt & ->)%step_Start Hset.
    pose proof (only_one_fits _ _ one_at_a_time Hlt) as Hnone.
    destruct (running s) as [|p r] eqn:Hr; [|done].
    destruct (abortIteration s) eqn:Habort.
    + destruct (Hflag eq_refl) as (_ & before & k & v & after & Hs & Hv & Hskip).
      destruct (task_start_effect rt inp index (set_waiting rest s)) as [Heff _].
      simpl in Heff. rewrite Habort in Heff. rewrite Heff. simpl.
      split; [done|]. exists before, k, v, (after ++ [(index, Fulfilled skipped_output)]).
      rewrite Hs. split_and!; [by rewrite <- app_assoc|done|].
      apply Forall_app. split; [done|]. by repeat constructor.
    + destruct (task_start_sets_flag index (set_waiting rest s) Habort)
        as [Hno|(Hrun & v & Hs & Hv)]; [congruence|].
      rewrite Hrun, Hs. simpl. split; [done|].
      exists (settled s), index, v, []. by split_and!.
  - intros (st & Hst & ->)%step_Resume Hset.
    destruct (single_running index st (running s) Hlen Hst) as [Hr Hwo].
    destruct (abortIteration s) eqn:Habort.
    + destruct (Hflag eq_refl) as (Hnone & _). by rewrite Hnone in Hr.
    + destruct (task_resume_sets_flag index st
                  (set_running (without index (running s)) s) Habort)
        as [Hno|(Hrun & v & Hs & Hv)]; [congruence|].
      rewrite Hrun, Hs. simpl. split; [done|].
      exists (settled s), index, v, []. by split_and!.
Qed.


End Sequential.

Lemma each_item_invoked_at_most_once_witness :
  let inp := Examples.input Examples.graph_plain Examples.three_empty 2 false in
  let rivet := Host.rivet_with Host.echo in
  let s := state_after Host.runtime rivet inp [Start; Start; Resume 1; Start]
             (initial_state inp empty_entry) in
  NoDup (invoked s)
  ∧ (∀ i, i ∈ invoked s → i < length (iteratorInputs inp))
  ∧ NoDup (settled s).*1
  ∧ (idle s = true → (settled s).*1 ≡ₚ seq 0 (length (iteratorInputs inp))).
Proof.
  apply (each_item_invoked_at_most_once Host.runtime
           (Host.rivet_with Host.echo)
           (Examples.input Examples.graph_plain Examples.three_empty 2 false)
           empty_entry [Start; Start; Resume 1; Start]).
  vm_compute. reflexivity.
Defined.

Lemma tasks_start_in_input_order_witness :
  let inp := Examples.input Examples.graph_plain Examples.three_empty 2 false in
  let rivet := Host.rivet_with Host.echo in
  let s := state_after Host.runtime rivet inp [Start; Start; Resume 1; Start]
             (initial_state inp empty_entry) in
  ∃ m, m ≤ length (iteratorInputs inp)
       ∧ waiting s = seq m (length (iteratorInputs inp) - m)
       ∧ (caching inp = false →
          ∃ k, k ≤ m ∧ invoked s = seq 0 k
               ∧ (abortIteration s = false → k = m)).
Proof.
  apply (tasks_start_in_input_order Host.runtime
           (Host.rivet_with Host.echo)
           (Examples.input Examples.graph_plain Examples.three_empty 2 false)
           empty_entry [Start; Start; Resume 1; Start]).
  vm_compute. reflexivity.
Defined.

Lemma runs_are_bounded_and_complete_witness :
  let inp := Examples.input Examples.graph_plain Examples.three_empty 2 false in
  let rivet := Host.rivet_with Host.echo in
  let schedule := [Start; Start; Resume 1; Start] in
  let s := state_after Host.runtime rivet inp schedule
             (initial_state inp empty_entry) in
  task_events schedule + work_left s ≤ 4 * length (iteratorInputs inp)
  ∧ ∃ rest s',
      (AbortSignal ∉ rest)
      ∧ exec Host.runtime rivet inp (schedule ++ rest)
          (initial_state inp empty_entry) = Some s'
      ∧ idle s' = true
      ∧ length rest ≤ work_left s.
Proof.
  apply (runs_are_bounded_and_complete Host.runtime
           (Host.rivet_with Host.echo)
           (Examples.input Examples.graph_plain Examples.three_empty 2 false)
           empty_entry [Start; Start; Resume 1; Start]).
  vm_compute. reflexivity.
Defined.


(** ** Cache hits *)

Section CacheHits.

Variable rt : Runtime.
Variable rivet : Rivet.
Variable inp : ProcessInput.
Variable entry : CacheStorage.

Hypothesis caching_on : caching inp = true.

Hypothesis every_item_cached :
  ∀ i, i < length (iteratorInputs inp) →
    ∃ json compressed,
      key_text_of rt inp i = Ok json
      ∧ cache entry !! sha256 rt json = Some compressed
      ∧ compressed ≠ "".

Lemma step_all_hits ev s s' :
  invoked s = [] ∧ cacheStorage s = entry
  ∧ (∀ i, i ∈ waiting s → i < length (iteratorInputs inp))
  ∧ Forall (fun p : nat * Stage =>
              p.1 < length (iteratorInputs inp)
              ∧ ∃ json, p.2 = HashLookup json
                        ∧ key_text_of rt inp p.1 = Ok json) (running s) →
  step rt rivet inp ev s = Some s' →
  invoked s' = [] ∧ cacheStorage s' = entry
  ∧ (∀ i, i ∈ waiting s' → i < length (iteratorInputs inp))
  ∧ Forall (fun p : nat * Stage =>
              p.1 < length (iteratorInputs inp)
              ∧ ∃ json, p.2 = HashLookup json
                        ∧ key_text_of rt inp p.1 = Ok json) (running s').
Proof.
  intros (Hinv & Hcache & Hwait & Hrun). destruct ev as [|index|].
  - intros (index & rest & Hw & _ & ->)%step_Start.
    assert (index < length (iteratorInputs inp)) as Hlt.
    { apply Hwait. rewrite Hw. left. }
    assert (∀ i, i ∈ rest → i < length (iteratorInputs inp)) as Hrest.
    { intros i Hi. apply Hwait. rewrite Hw. by right. }
    destruct (every_item_cached index Hlt) as (json & c & Hjson & _).
    unfold key_text_of in Hjson.
    unfold task_start. rewrite caching_on, Hjson. simpl.
    destruct (abortIteration s); simpl; split_and!; try done.
    apply Forall_app. split; [done|]. constructor; [|done]. simpl.
    split; [done|]. by exists json.
  - intros (st & Hst & ->)%step_Resume.
    apply stage_of_elem in Hst.
    rewrite Forall_forall in Hrun.
    destruct (Hrun _ Hst) as (Hlt & json & Hstage & Hjson). simpl in *.
    subst st.
    destruct (every_item_cached index Hlt) as (json' & c & Hjson' & Hc & Hne).
    rewrite Hjson in Hjson'. injection Hjson' as <-.
    assert (Forall (fun p : nat * Stage =>
              p.1 < length (iteratorInputs inp)
              ∧ ∃ json, p.2 = HashLookup json
                        ∧ key_text_of rt inp p.1 = Ok json)
              (without index (running s))) as Hrest.
    { apply Forall_without. by apply Forall_forall. }
    unfold task_resume. simpl. rewrite Hcache, Hc.
    destruct c as [|a c]; [done|].
    unfold catch_block.
    destruct (decompressObject rt (String a c)); [done|].
    destruct (JSON_stringify rt (item_at inp index)); done.
  - intros [= <-]. simpl. by split_and!.
Qed.

(** X13.  With caching on, when the key of every item of the batch is in
    the entry's cache with a non-empty value, no schedule makes the node
    call the subgraph, whether or not the stored values decode, and the
    entry is left as it was. *)
Theorem cache_hits_never_call_the_subgraph (schedule : list Event)
    (s : QState) :
  exec rt rivet inp schedule (initial_state inp entry) = Some s →
  invoked s = [] ∧ cacheStorage s = entry ∧ invocations_in_flight s = 0.
Proof.
  intros Hexec.
  assert (invoked s = [] ∧ cacheStorage s = entry
          ∧ (∀ i, i ∈ waiting s → i < length (iteratorInputs inp))
          ∧ Forall (fun p : nat * Stage =>
                      p.1 < length (iteratorInputs inp)
                      ∧ ∃ json, p.2 = HashLookup json
                                ∧ key_text_of rt inp p.1 = Ok json)
              (running s)) as (Hinv & Hcache & _ & Hrun).
  { apply (exec_invariant rt rivet inp
             (fun s => invoked s = [] ∧ cacheStorage s = entry
                ∧ (∀ i, i ∈ waiting s → i < length (iteratorInputs inp))
                ∧ Forall (fun p : nat * Stage =>
                            p.1 < length (iteratorInputs inp)
                            ∧ ∃ json, p.2 = HashLookup json
                                      ∧ key_text_of rt inp p.1 = Ok json)
                    (running s))
             schedule (initial_state inp entry) s);
      [apply step_all_hits| |exact Hexec].
    simpl. split_and!; [done|done| |constructor].
    intros i Hi%elem_of_seq. lia. }
  split_and!; [done|done|].
  unfold invocations_in_flight.
  induction Hrun as [|[i st] r (_ & json & Hst & _) _ IH]; [done|].
  simpl in Hst. subst st. by rewrite filter_cons_False.
Qed.

End CacheHits.

Lemma cache_hits_never_call_the_subgraph_witness :
  let inp := Examples.input Examples.graph_plain Examples.three_empty 2 true in
  let rivet := Host.rivet_with Host.echo in
  let entry := cacheStorage
                 (state_after Host.runtime rivet inp
                    [Start; Resume 0; Resume 0; Resume 0]
                    (initial_state inp empty_entry)) in
  let s := state_after Host.runtime rivet inp
             [Start; Start; Resume 1; Resume 0; Start; Resume 2]
             (initial_state inp entry) in
  invoked s = [] ∧ cacheStorage s = entry ∧ invocations_in_flight s = 0.
Proof.
  intros inp rivet entry s.
  assert (∀ i, i < length (iteratorInputs inp) →
            ∃ json compressed,
              key_text_of Host.runtime inp i = Ok json
              ∧ cache entry !! sha256 Host.runtime json = Some compressed
              ∧ compressed ≠ "") as Hall.
  { intros i Hi.
    destruct i as [|[|[|i]]]; [| | |simpl in Hi; lia].
    all: eexists _, _; split_and!; [vm_compute; reflexivity
                                   |vm_compute; reflexivity|done]. }
  apply (cache_hits_never_call_the_subgraph Host.runtime rivet inp entry
           eq_refl Hall [Start; Start; Resume 1; Resume 0; Start; Resume 2]).
  vm_compute. reflexivity.
Defined.

(** ** What a returned array says about the run *)

Lemma some_st_excluded_false outputs :
  Js.some_st (fun f (_ : unit) => b ← is_excluded f; Ok (b, ())) outputs ()
    = Ok (false, ()) →
  Forall (fun v => is_excluded v = Ok false) outputs.
Proof.
  induction outputs as [|v outputs IH]; simpl; [constructor|].
  destruct (is_excluded v) as [[|]|e] eqn:Hv; simpl; [done| |done].
  intros H. constructor; [done|by apply IH].
Qed.

Lemma aggregate_array outputs values :
  aggregate outputs = Returned (BatchResult values) →
  values = outputs ∧ Forall (fun v => is_excluded v = Ok false) outputs.
Proof.
  unfold aggregate.
  destruct (Js.some_st _ outputs ()) as [[[|] []]|e] eqn:Hsome; [| |done].
  - repeat case_match; done.
  - intros [= <-]. split; [done|]. by apply some_st_excluded_false.
Qed.

Lemma process_prelude_no_array rt rivet inp storage out storage' values :
  process_prelude rt rivet inp storage = Done out storage' →
  out ≠ Returned (BatchResult values).
Proof.
  unfold process_prelude. repeat case_match; intros [= <- <-]; done.
Qed.

(** X14.  On every run, aborted or not, an array returned by [process] is
    complete: every item of the batch is an object, the array has one
    output per item, the output at each position is what the promise of
    the item at that position was fulfilled with, and no output is marked
    excluded; a failed or skipped item never leaves a shorter array. *)
Theorem returned_array_is_complete (rt : Runtime) (rivet : Rivet)
    (inp : ProcessInput) (schedule : list Event)
    (storage storage' : PluginCache) (values : list JsValue) :
  process rt rivet inp schedule storage
    = Some (Returned (BatchResult values), storage') →
  length values = length (iteratorInputs inp)
  ∧ Forall (fun item => Js.typeof item = "object") (iteratorInputs inp)
  ∧ Forall (fun v => is_excluded v = Ok false) values
  ∧ ∃ s0 s,
      process_prelude rt rivet inp storage = Dispatch s0
      ∧ exec rt rivet inp schedule s0 = Some s
      ∧ idle s = true
      ∧ ∀ index v, values !! index = Some v →
          (index, Fulfilled v) ∈ settled s.
Proof.
  unfold process.
  destruct (process_prelude rt rivet inp storage) as [out st|s0] eqn:Hpre.
  { intros [= -> ->]. by apply process_prelude_no_array with (values := values) in Hpre. }
  destruct (new_PQueue rt inp) as [[]|e]; [|done].
  destruct (exec rt rivet inp schedule s0) as [s|] eqn:Hexec; [|done]. simpl.
  unfold process_finish.
  destruct (idle s) eqn:Hidle; [|done].
  destruct (first_rejection (settled s)); [done|].
  destruct (iteratorOutputs inp s) as [outputs|] eqn:Hout; [|done]. simpl.
  intros [= Hagg _]. apply aggregate_array in Hagg as [-> Hall].
  unfold iteratorOutputs in Hout. apply mapM_Some_1 in Hout.
  pose proof (Forall2_length _ _ _ Hout) as Hlen. rewrite length_seq in Hlen.
  split_and!; [done| |done|].
  - apply process_prelude_dispatch in Hpre as (_ & _ & _ & _ & Hobj & _).
    unfold some_item_not_object in Hobj.
    apply Forall_forall. intros item Hitem.
    destruct (decide (Js.typeof item = "object")) as [|Hne]; [done|].
    assert (existsb (fun s => negb (bool_decide (Js.typeof s = "object")))
              (iteratorInputs inp) = true) as Hex; [|congruence].
    apply existsb_exists. exists item. split; [by apply list_elem_of_In|].
    by rewrite bool_decide_false.
  - exists s0, s. split_and!; [done|done|done|].
    intros index v Hv.
    destruct (Forall2_lookup_r _ _ _ _ _ Hout Hv) as (i & Hi & Hof).
    apply lookup_seq in Hi as [-> _]. by apply output_of_elem.
Qed.


Lemma returned_array_is_complete_witness :
  let inp := Examples.input Examples.graph_plain Examples.three_empty 2 false in
  let rivet := Host.rivet_with Host.echo in
  let schedule := [Start; Start; Resume 1; Resume 0; Start; Resume 2] in
  let values :=
    replicate 3
      (JObj [("outputs", JObj [("type", JStr "object"); ("value", JObj [])])]) in
  length values = 3
  ∧ Forall (fun v => is_excluded v = Ok false) values.
Proof.
  intros inp rivet schedule values.
  assert (process Host.runtime rivet inp schedule ∅
          = Some (Returned (BatchResult values),
                  (outcome_after Host.runtime rivet inp schedule ∅).2))
    as Hrun.
  { vm_compute. reflexivity. }
  destruct (returned_array_is_complete Host.runtime rivet inp schedule
              ∅ _ values Hrun) as (Hlen & _ & Hall & _).
  split; [exact Hlen|exact Hall].
Defined.

(** ** From one run to the next *)

Section NextRun.

Variable rt : Runtime.
Variable rivet : Rivet.
Variable inp : ProcessInput.

Hypothesis caching_on : caching inp = true.
Hypothesis compressed_not_empty : ∀ text, compressToUTF16 rt text ≠ "".

#[local] Abbreviation keys_kept := (keys_kept rt inp).
#[local] Abbreviation key_stored := (key_stored rt inp).

Lemma settle_keys_kept index r s :
  keys_kept s →
  (∀ v, r = Fulfilled v → is_excluded v = Ok false →
        key_stored (cacheStorage s) index) →
  keys_kept (settle index r s).
Proof.
  intros [Hrun Hset] Hnew. split; simpl; [done|].
  apply Forall_app. split; [done|]. by constructor.
Qed.

Lemma suspend_keys_kept index st s :
  keys_kept s →
  match st with
  | HashLookup json | HashStore _ json => key_text_of rt inp index = Ok json
  | Processing => True
  end →
  keys_kept (suspend index st s).
Proof.
  intros [Hrun Hset] Hnew. split; simpl; [|done].
  apply Forall_app. split; [done|]. by constructor.
Qed.

Lemma catch_block_keys_kept index itemOutput e s :
  keys_kept s → keys_kept (catch_block rt inp index itemOutput e s).
Proof.
  intros Hk. unfold catch_block.
  destruct (JSON_stringify rt (item_at inp index)) as [inputs|e'].
  - assert (keys_kept
              (settle index
                 (Fulfilled (failed_output inp index itemOutput e inputs)) s))
      as Hk'; [|exact Hk'].
    apply settle_keys_kept; [done|].
    intros v [= <-]. by rewrite failed_output_excluded.
  - apply settle_keys_kept; [done|]. by intros v [=].
Qed.

Lemma key_stored_insert c k x index :
  x ≠ "" → key_stored c index →
  key_stored {| cache := <[k := x]> (cache c);
                expiryTimestamp := expiryTimestamp c;
                graphSnapshot := graphSnapshot c |} index.
Proof.
  intros Hx (json & y & Hjson & Hy & Hne). simpl.
  destruct (decide (k = sha256 rt json)) as [->|Hk].
  - exists json, x. split_and!; [done| |done]. simpl. apply lookup_insert_eq.
  - exists json, y. split_and!; [done| |done]. simpl.
    by rewrite lookup_insert_ne.
Qed.

Lemma step_keys_kept ev s s' :
  keys_kept s → step rt rivet inp ev s = Some s' → keys_kept s'.
Proof.
  intros Hk. destruct ev as [|index|].
  - intros (index & rest & Hw & _ & ->)%step_Start.
    assert (keys_kept (set_waiting rest s)) as Hk0 by exact Hk.
    unfold task_start. rewrite caching_on.
    destruct (abortIteration (set_waiting rest s)).
    { apply settle_keys_kept; [done|]. by intros v [= <-]. }
    destruct (JSON_stringify rt (iteratorInputData inp (item_at inp index)))
      as [json|e] eqn:Hjson.
    + by apply suspend_keys_kept.
    + by apply catch_block_keys_kept.
  - intros (st & Hst & ->)%step_Resume.
    apply stage_of_elem in Hst. destruct Hk as [Hrun Hset].
    pose proof Hrun as Hstage. rewrite Forall_forall in Hstage.
    specialize (Hstage _ Hst). simpl in Hstage.
    assert (keys_kept (set_running (without index (running s)) s)) as Hk0.
    { split; simpl; [by apply Forall_without|done]. }
    destruct st as [json| |itemOutput json]; simpl.
    + destruct (cache (cacheStorage s) !! sha256 rt json) as [c|] eqn:Hc.
      2:{ by apply (suspend_keys_kept index Processing). }
      destruct c as [|a c].
      { by apply (suspend_keys_kept index Processing). }
      destruct (decompressObject rt (String a c)) as [v|e].
      * apply settle_keys_kept; [done|]. intros _ _ _.
        by exists json, (String a c).
      * by apply catch_block_keys_kept.
    + destruct (callGraph_process rivet index _) as [itemOutput|e].
      2:{ by apply catch_block_keys_kept. }
      rewrite caching_on.
      destruct (JSON_stringify rt (iteratorInputData inp (item_at inp index)))
        as [json|e] eqn:Hjson.
      * by apply (suspend_keys_kept index (HashStore itemOutput json)).
      * by apply catch_block_keys_kept.
    + destruct (compressObject rt (JObj itemOutput)) as [compressed|e] eqn:Hz.
      2:{ by apply catch_block_keys_kept. }
      assert (compressed ≠ "") as Hne.
      { unfold compressObject in Hz.
        destruct (JSON_stringify rt (JObj itemOutput)); [|done].
        simpl in Hz. injection Hz as <-. apply compressed_not_empty. }
      apply settle_keys_kept.
      * destruct Hk0 as [Hrun0 Hset0]. split; simpl; [done|].
        simpl in Hset0. eapply Forall_impl; [exact Hset0|].
        intros p Hp v Hv Hgood. simpl. apply key_stored_insert; [done|].
        by apply (Hp v).
      * intros _ _ _. exists json, compressed. simpl.
        split_and!; [done|apply lookup_insert_eq|done].
  - by intros [= <-].
Qed.

(** X15.  With caching on, when a run settles every item with an output
    that is not excluded, the key of every item of the batch is in the
    entry's cache with a non-empty value; so the same batch dispatched
    again on that entry is served from the cache: whatever the schedule,
    the subgraph is not called and the entry stays as it is.  (The
    compressor never returns the empty string.) *)
Theorem successful_cached_run_serves_the_next (entry : CacheStorage)
    (schedule : list Event) (s : QState) :
  exec rt rivet inp schedule (initial_state inp entry) = Some s →
  idle s = true →
  Forall good (settled s) →
  (∀ index, index < length (iteratorInputs inp) →
            key_stored (cacheStorage s) index)
  ∧ ∀ schedule' s',
      exec rt rivet inp schedule' (initial_state inp (cacheStorage s))
        = Some s' →
      invoked s' = [] ∧ cacheStorage s' = cacheStorage s.
Proof.
  intros Hexec Hidle Hgood.
  assert (well_formed inp s) as Hwf.
  { apply (exec_well_formed rt rivet inp schedule (initial_state inp entry) s);
      [apply initial_state_well_formed|exact Hexec]. }
  assert (keys_kept s) as [_ Hset].
  { apply (exec_invariant rt rivet inp (fun s => keys_kept s)
             schedule (initial_state inp entry) s); [| |exact Hexec].
    - intros ev s1 s2. apply step_keys_kept.
    - split; constructor. }
  assert (∀ index, index < length (iteratorInputs inp) →
                   key_stored (cacheStorage s) index) as Hstored.
  { intros index Hlt.
    pose proof (idle_all_settled inp s index Hwf Hidle Hlt) as Hin.
    apply list_elem_of_fmap in Hin as ([i r] & -> & Hin). simpl.
    rewrite Forall_forall in Hgood, Hset.
    destruct (Hgood _ Hin) as (v & Hv & Hok). by apply (Hset _ Hin v). }
  split; [exact Hstored|].
  intros schedule' s' Hexec'.
  assert (invoked s' = [] ∧ cacheStorage s' = cacheStorage s
          ∧ (∀ i, i ∈ waiting s' → i < length (iteratorInputs inp))
          ∧ Forall (fun p : nat * Stage =>
                      p.1 < length (iteratorInputs inp)
                      ∧ ∃ json, p.2 = HashLookup json
                                ∧ key_text_of rt inp p.1 = Ok json)
              (running s')) as (Hinv & Hcache & _).
  { apply (exec_invariant rt rivet inp
             (fun s' => invoked s' = [] ∧ cacheStorage s' = cacheStorage s
                ∧ (∀ i, i ∈ waiting s' → i < length (iteratorInputs inp))
                ∧ Forall (fun p : nat * Stage =>
                            p.1 < length (iteratorInputs inp)
                            ∧ ∃ json, p.2 = HashLookup json
                                      ∧ key_text_of rt inp p.1 = Ok json)
                    (running s'))
             schedule' (initial_state inp (cacheStorage s)) s');
      [|  |exact Hexec'].
    - apply (step_all_hits rt rivet inp (cacheStorage s) caching_on Hstored).
    - simpl. split_and!; [done|done| |constructor].
      intros i Hi%elem_of_seq. lia. }
  done.
Qed.

End NextRun.

Lemma successful_cached_run_serves_the_next_witness :
  let inp := Examples.input Examples.graph_plain Examples.three_empty 2 true in
  let rivet := Host.rivet_with Host.echo in
  let s := state_after Host.runtime rivet inp
             [Start; Resume 0; Resume 0; Resume 0; Start; Resume 1;
              Start; Resume 2]
             (initial_state inp empty_entry) in
  let s' := state_after Host.runtime rivet inp
              [Start; Start; Resume 1; Resume 0; Start; Resume 2]
              (initial_state inp (cacheStorage s)) in
  invoked s' = [] ∧ cacheStorage s' = cacheStorage s.
Proof.
  intros inp rivet s s'.
  assert (∀ text, compressToUTF16 Host.runtime text ≠ "") as Hz.
  { intros text. done. }
  assert (Forall good (settled s)) as Hgood.
  { vm_compute. repeat constructor; eexists; split; reflexivity. }
  destruct (successful_cached_run_serves_the_next Host.runtime rivet inp
              eq_refl Hz empty_entry
              [Start; Resume 0; Resume 0; Resume 0; Start; Resume 1;
               Start; Resume 2] s) as [_ Hnext];
    [vm_compute; reflexivity|vm_compute; reflexivity|exact Hgood|].
  apply (Hnext [Start; Start; Resume 1; Resume 0; Start; Resume 2]).
  vm_compute. reflexivity.
Defined.

(** ** The node as created and as declared *)

(** X16.  A node as [create] makes it, run without a chunk size input,
    processes the batch one item at a time in input order, never writes to
    the cache entry it runs on, and leaves a plugin cache that has no entry
    for it exactly as it found it, on every way out of [process]. *)
Theorem created_node_runs_one_by_one_without_cache (rt : Runtime)
    (rivet : Rivet) (inp : ProcessInput) (newId : string) :
  data inp = process_data (plugin_data (create newId)) →
  chunkSizeInput inp = None →
  (∀ entry schedule s,
     exec rt rivet inp schedule (initial_state inp entry) = Some s →
     length (running s) ≤ 1
     ∧ (settled s).*1 ++ (running s).*1 ++ waiting s
       = seq 0 (length (iteratorInputs inp))
     ∧ cacheStorage s = entry)
  ∧ (∀ schedule storage out storage',
       storage !! newId = None →
       process rt rivet inp schedule storage = Some (out, storage') →
       storage' = storage).
Proof.
  intros Hdata Hinput.
  assert (Js.num_ge (Finite 1) (resolved_chunkSize inp) = true) as Hone.
  { unfold resolved_chunkSize. by rewrite Hdata, Hinput. }
  assert (caching inp = false) as Hoff.
  { unfold caching. by rewrite Hdata. }
  split.
  - intros entry schedule s Hexec.
    destruct (exec_cache_frame rt rivet inp entry schedule s Hexec)
      as (_ & _ & _ & Hentry).
    assert ((settled s).*1 ++ (running s).*1 ++ waiting s
              = seq 0 (length (iteratorInputs inp))
            ∧ length (running s) ≤ 1) as [Hord Hlen].
    { apply (exec_invariant rt rivet inp
               (fun s => (settled s).*1 ++ (running s).*1 ++ waiting s
                           = seq 0 (length (iteratorInputs inp))
                         ∧ length (running s) ≤ 1)
               schedule (initial_state inp entry) s); [| |exact Hexec].
      - intros ev s1 s2 [H1 H2] Hstep.
        by apply (step_in_order rt rivet inp Hone ev s1 s2).
      - simpl. split; [done|lia]. }
    split_and!; [done|done|by apply Hentry].
  - intros schedule storage out storage' Hnone Hrun.
    destruct (process_storage_caching_off rt rivet inp schedule storage out
                storage' Hoff Hrun) as [->|(snapshot & ->)]; [done|].
    unfold write_through. rewrite Hdata. simpl. rewrite Hnone.
    by rewrite bool_decide_false by by intros [? ?].
Qed.

Lemma created_node_runs_one_by_one_without_cache_witness :
  let inp :=
    {| data := process_data (plugin_data (create "node"));
       input_graph := JObj [("type", JStr "graph-reference")];
       graphRef := {| graphId := "g"; graphName := "G" |};
       iteratorInputs := Examples.three_empty;
       chunkSizeInput := None;
       project_graphs := {[ "g" := Examples.graph_plain ]};
       now_created := 1000;
       now_cleaned := 2000 |} in
  let rivet := Host.rivet_with Host.echo in
  let schedule := [Start; Resume 0; Start; Resume 1; Start; Resume 2] in
  (outcome_after Host.runtime rivet inp schedule ∅).2 = ∅.
Proof.
  intros inp rivet schedule.
  destruct (created_node_runs_one_by_one_without_cache Host.runtime rivet inp
              "node" eq_refl eq_refl) as [_ Hstorage].
  apply (Hstorage schedule ∅
           (outcome_after Host.runtime rivet inp schedule ∅).1).
  - apply lookup_empty.
  - vm_compute. reflexivity.
Defined.

(** X17.  The ports the node declares.  The graph port and the batch
    port are always declared, with their data types, and required; the
    chunk size port is declared exactly when the toggle is on, is then a
    number port that is not required and carries the node's own chunk size
    as its default, so that feeding [process] the default is the same as
    leaving the port unconnected; nothing else is declared and the ids are
    distinct.  Of the outputs [process] returns, the array is written to
    the one declared port; an error result writes a second port, [error],
    that [getOutputDefinitions] does not declare. *)
Theorem declared_ports (rivet : Rivet) (d : NodeData) :
  (∃ p, p ∈ getInputDefinitions rivet d
        ∧ input_id p = iteratorConnectionIds.graph
        ∧ input_dataType p = "graph-reference"
        ∧ input_required p = Some true)
  ∧ (∃ p, p ∈ getInputDefinitions rivet d
          ∧ input_id p = iteratorConnectionIds.iteratorInputs
          ∧ input_dataType p = "object[]"
          ∧ input_required p = Some true)
  ∧ ((∃ p, p ∈ getInputDefinitions rivet d
           ∧ input_id p = iteratorConnectionIds.chunkSize)
     ↔ data_useChunkSizeToggle d = true)
  ∧ (∀ p, p ∈ getInputDefinitions rivet d →
          input_id p = iteratorConnectionIds.chunkSize →
          input_dataType p = "number"
          ∧ input_required p = None
          ∧ input_data p = Some (data_chunkSize d)
          ∧ ∀ inp inp',
              data inp = process_data d → data inp' = process_data d →
              chunkSizeInput inp = input_data p →
              chunkSizeInput inp' = None →
              resolved_chunkSize inp = resolved_chunkSize inp')
  ∧ (∀ p, p ∈ getInputDefinitions rivet d →
          input_id p ∈ [iteratorConnectionIds.graph;
                        iteratorConnectionIds.iteratorInputs;
                        iteratorConnectionIds.chunkSize])
  ∧ NoDup (input_id <$> getInputDefinitions rivet d)
  ∧ output_id <$> getOutputDefinitions d
    = [iteratorConnectionIds.iteratorOutputs]
  ∧ ∀ o, (iteratorConnectionIds.iteratorOutputs ∈ (outputs_object o).*1)
         ∧ ((outputs_object o).*1 ⊆ output_id <$> getOutputDefinitions d
            ↔ ∃ values, o = BatchResult values).
Proof.
  unfold getInputDefinitions. split_and!.
  - eexists. split; [apply elem_of_app; left; left|]. done.
  - eexists. split; [apply elem_of_app; left; right; left|]. done.
  - split.
    + intros (p & Hp & Hid). destruct (data_useChunkSizeToggle d); [done|].
      rewrite app_nil_r in Hp.
      repeat (apply elem_of_cons in Hp as [->|Hp]); [done|done|].
      by apply elem_of_nil in Hp.
    + intros ->. eexists. split; [apply elem_of_app; right; left|]. done.
  - intros p Hp Hid.
    assert (input_dataType p = "number" ∧ input_required p = None
            ∧ input_data p = Some (data_chunkSize d)) as (Hty & Hreq & Hdata).
    { destruct (data_useChunkSizeToggle d); simpl in Hp;
        repeat (apply elem_of_cons in Hp as [->|Hp]); try done;
        by apply elem_of_nil in Hp. }
    split_and!; [done|done|done|].
    intros inp inp' Hd Hd' Hin Hnone. unfold resolved_chunkSize.
    by rewrite Hd, Hd', Hin, Hnone, Hdata.
  - intros p Hp.
    destruct (data_useChunkSizeToggle d); simpl in Hp;
      repeat (apply elem_of_cons in Hp as [->|Hp]); simpl;
      try (by apply elem_of_nil in Hp); set_solver.
  - destruct (data_useChunkSizeToggle d); simpl;
      repeat (apply NoDup_cons; split; [set_solver|]); apply NoDup_nil_2.
  - done.
  - intros [message|values]; simpl.
    + split; [set_solver|]. split; [|by intros [values [=]]].
      intros Hsub. assert (iteratorConnectionIds.iteratorError
                           ∈ [iteratorConnectionIds.iteratorOutputs]) as Hin.
      { apply Hsub. set_solver. }
      by apply list_elem_of_singleton in Hin.
    + split; [set_solver|]. split; [by exists values|]. set_solver.
Qed.
